(** * momi: Moran rate matrix, memoisation and numerical helpers

    A shallow embedding of [momi/util.py] and [momi/moran_model.py].

    Conventions of the embedding.
    - Python exceptions are the constructors of [exn]; a call that may raise
      returns a [result].
    - A Python [dict] is a [gmap]; its keys are the equality classes of the
      hashable Python values used as keys (a dict identifies keys that
      compare equal, such as [(2,)] and [(2.0,)]).
    - numpy arrays of floating-point numbers are lists of rationals [Q]:
      arithmetic is exact, and every float literal of the source stands for
      the rational it denotes.  Only [expm1d], whose behaviour at the IEEE
      special values is at stake, is modelled on binary64 ([spec_float]).
    - numpy and scipy routines are modelled by the behaviour of their
      current releases: a float is refused where an array dimension or a
      slice bound is expected, and [scipy.sparse.diags] accepts a diagonal
      of length zero and refuses one of negative length. *)

From Stdlib Require Import ZArith QArith Qabs Qround Qminmax Lia Lqa List Bool.
From Stdlib Require Import Floats.SpecFloat.
From stdpp Require Import gmap strings.
Import ListNotations.

(** ** Exceptions and results *)

Inductive exn : Type :=
| AssertionError
| ValueError
| TypeError
| KeyError.

Inductive result (A : Type) : Type :=
| Ok (a : A)
| Raise (e : exn).
Arguments Ok {A} a.
Arguments Raise {A} e.

Definition bind {A B : Type} (r : result A) (f : A -> result B) : result B :=
  match r with
  | Ok a => f a
  | Raise e => Raise e
  end.

Notation "x <~ e ;; k" := (bind e (fun x => k))
  (at level 100, e at next level, right associativity).

Fixpoint mapM {A B : Type} (f : A -> result B) (l : list A) : result (list B) :=
  match l with
  | [] => Ok []
  | a :: l' => b <~ f a ;; bs <~ mapM f l' ;; Ok (b :: bs)
  end.


(** [cache[key]]: subscripting a dict raises [KeyError] on a missing key. *)
Definition getitem {K V : Type} `{Countable K} (d : gmap K V) (k : K) : result V :=
  match d !! k with
  | Some v => Ok v
  | None => Raise KeyError
  end.

(** ** [util.memoize] *)

Section Memoize.
Context {A KW V K : Type} `{Countable K}.

(** [key_of args] is the dict key of the positional-argument tuple [args]. *)
Variable key_of : A -> K.

(** The decorated function, applied to the positional and the keyword
    arguments of the call. *)
Variable obj : A -> KW -> result V.

(** The closure state of one [memoizer]: the dict [cache], and, as an
    instrument, the list of calls made to [obj] so far. *)
Record memo_state : Type := MemoState {
  cache : gmap K V;
  calls : list (A * KW)
}.

(** [memoize(obj)]: [cache = obj.cache = {}]. *)
Definition memoize : memo_state := MemoState ∅ [].

(** [memoizer]: one call with positional arguments [args] and keyword
    arguments [kwargs]. *)
Definition memoizer (args : A) (kwargs : KW) (s : memo_state)
  : result V * memo_state :=
  match cache s !! key_of args with
  | None =>
      (* args not in cache: cache[args] = obj(args, kwargs) *)
      let called := calls s ++ [(args, kwargs)] in
      match obj args kwargs with
      | Raise e => (Raise e, MemoState (cache s) called)
      | Ok v =>
          let s' := MemoState (<[key_of args := v]> (cache s)) called in
          (getitem (cache s') (key_of args), s')
      end
  | Some _ => (getitem (cache s) (key_of args), s)
  end.

(** A sequence of calls to the same memoizer, threading its state. *)
Fixpoint run_calls (cs : list (A * KW)) (s : memo_state)
  : list (result V) * memo_state :=
  match cs with
  | [] => ([], s)
  | (args, kwargs) :: cs' =>
      let '(r, s1) := memoizer args kwargs s in
      let '(rs, s2) := run_calls cs' s1 in
      (r :: rs, s2)
  end.

End Memoize.

Arguments memo_state A KW V K {_ _}.
Arguments MemoState {A KW V K _ _} cache calls.

(** ** [util.memoize_instance] *)

Section MemoizeInstance.
Context {A KW V KA KK : Type} `{Countable KA} `{Countable KK}.

(** [args_key] is the dict key of [args[1:]], [kw_key] that of
    [frozenset(kw.items())]. *)
Variable args_key : A -> KA.
Variable kw_key : KW -> KK.

(** A [memoize_instance] object: the identity of [self.func] (function
    objects hash by identity) and the method it wraps, whose first argument
    is the instance. *)
Record memoize_instance : Type := MemoizeInstance {
  func_id : nat;
  func : nat -> A -> KW -> result V
}.

(** The instances, by identity: [obj.__cache] when the attribute exists, and
    the instrumented list of calls made to wrapped methods. *)
Record inst_state : Type := InstState {
  caches : gmap nat (gmap (nat * KA * KK) V);
  inst_calls : list (nat * nat * A * KW)
}.

Definition no_instances : inst_state := InstState ∅ [].

(** [memoize_instance.__call__] on the instance [o], as reached through
    [partial(self, obj)]. *)
Definition call (self : memoize_instance) (o : nat) (args : A) (kw : KW)
    (s : inst_state) : result V * inst_state :=
  (* try: cache = obj.__cache / except AttributeError: obj.__cache = {} *)
  let c := match caches s !! o with Some c => c | None => ∅ end in
  let key := (func_id self, args_key args, kw_key kw) in
  match c !! key with
  | Some res => (Ok res, InstState (<[o := c]> (caches s)) (inst_calls s))
  | None =>
      let called := inst_calls s ++ [(func_id self, o, args, kw)] in
      match func self o args kw with
      | Raise e => (Raise e, InstState (<[o := c]> (caches s)) called)
      | Ok res =>
          (Ok res, InstState (<[o := <[key := res]> c]> (caches s)) called)
      end
  end.

Fixpoint run_method_calls (cs : list (memoize_instance * nat * A * KW))
    (s : inst_state) : list (result V) * inst_state :=
  match cs with
  | [] => ([], s)
  | (self, o, args, kw) :: cs' =>
      let '(r, s1) := call self o args kw s in
      let '(rs, s2) := run_method_calls cs' s1 in
      (r :: rs, s2)
  end.

End MemoizeInstance.

Arguments memoize_instance : clear implicits.
Arguments inst_state A KW V KA KK {_ _ _ _}.

(** ** Python numbers and numpy helpers *)

Local Open Scope Q_scope.

(** A Python number: an [int] or a [float].  Arithmetic on two ints stays
    in the integers, any other combination yields a float. *)
Inductive pynum : Type :=
| PyInt (z : Z)
| PyFloat (q : Q).

Definition num_val (a : pynum) : Q :=
  match a with
  | PyInt z => inject_Z z
  | PyFloat q => q
  end.

Definition py_add (a b : pynum) : pynum :=
  match a, b with
  | PyInt x, PyInt y => PyInt (x + y)
  | _, _ => PyFloat (num_val a + num_val b)
  end.

Definition py_sub (a b : pynum) : pynum :=
  match a, b with
  | PyInt x, PyInt y => PyInt (x - y)
  | _, _ => PyFloat (num_val a - num_val b)
  end.

Definition Qltb (a b : Q) : bool := negb (Qle_bool b a).

Definition py_ltb (a b : pynum) : bool :=
  match a, b with
  | PyInt x, PyInt y => (x <? y)%Z
  | _, _ => Qltb (num_val a) (num_val b)
  end.

(** The builtins [min] and [max] return the first extremal argument. *)
Definition py_min (a b : pynum) : pynum := if py_ltb b a then b else a.
Definition py_max (a b : pynum) : pynum := if py_ltb a b then b else a.

(** [max(list)]: [ValueError] on an empty sequence. *)
Definition py_max_list (l : list pynum) : result pynum :=
  match l with
  | [] => Raise ValueError
  | a :: l' => Ok (fold_left py_max l' a)
  end.

(** A number used as an array dimension or slice bound: a float is refused
    with [TypeError]. *)
Definition as_index (a : pynum) : result Z :=
  match a with
  | PyInt z => Ok z
  | PyFloat _ => Raise TypeError
  end.

(** [np.arange(stop)]: [0, 1, ..., ceil(stop) - 1], empty when [stop <= 0]. *)
Definition arange (stop : pynum) : list Q :=
  let len := match stop with PyInt z => z | PyFloat q => Qceiling q end in
  map (fun k => inject_Z (Z.of_nat k)) (seq 0 (Z.to_nat len)).

(** [row[start:stop] = rhs] on a one-dimensional array: the slice bounds are
    clipped to the array, and [rhs] must have the length of the slice or
    length one (broadcast). *)
Definition assign_slice (row : list Q) (start stop : nat) (rhs : list Q)
  : result (list Q) :=
  let s := Nat.min start (length row) in
  let e := Nat.max s (Nat.min stop (length row)) in
  if (length rhs =? e - s)%nat then
    Ok (firstn s row ++ rhs ++ skipn e row)
  else if (length rhs =? 1)%nat then
    Ok (firstn s row ++ repeat (hd 0 rhs) (e - s) ++ skipn e row)
  else Raise ValueError.

(** ** [scipy.sparse.diags] *)

Inductive spformat : Type := CSR | CSC | COO | DIA | LIL | DOK | BSR.

(** A matrix in diagonal storage: row [j] of [dia_data] holds the diagonal
    of offset [dia_offsets[j]], the entry of column [c] at index [c]. *)
Record dia_matrix : Type := DiaMatrix {
  dia_data : list (list Q);
  dia_offsets : list Z;
  dia_shape : Z * Z
}.

(** A sparse matrix: its entries (kept in diagonal storage) and the tag of
    the storage layout it was converted to by [asformat]. *)
Record spmatrix : Type := SpMatrix {
  sp_format : spformat;
  sp_dia : dia_matrix
}.

(** [M[r, c]]: the stored entries of all diagonals through [(r, c)], added. *)
Definition dia_get (D : dia_matrix) (r c : nat) : Q :=
  fold_right Qplus 0
    (map (fun '(row, off) =>
            if (Z.of_nat c - Z.of_nat r =? off)%Z then nth c row 0 else 0)
         (combine (dia_data D) (dia_offsets D))).

Definition get (M : spmatrix) (r c : nat) : Q := dia_get (sp_dia M) r c.

Definition shape (M : spmatrix) : Z * Z := dia_shape (sp_dia M).

(** [M.todense()] *)
Definition todense (M : spmatrix) : list (list Q) :=
  map (fun r => map (fun c => get M r c) (seq 0 (Z.to_nat (snd (shape M)))))
      (seq 0 (Z.to_nat (fst (shape M)))).

(** [length = min(m + offset, n - offset, K)] *)
Definition diag_length (m n K : pynum) (offset : Z) : pynum :=
  py_min (py_min (py_add m (PyInt offset)) (py_sub n (PyInt offset))) K.

(** One round of the loop that fills [data_arr]:
    [data_arr[j, k:k+length] = diagonal[..., :length]]. *)
Definition fill_diagonal (m n K : pynum) (M : nat) (d : list Q * Z)
  : result (list Q) :=
  let '(diagonal, offset) := d in
  let k := Z.max 0 offset in
  let length := diag_length m n K offset in
  if py_ltb length (PyInt 0) then Raise ValueError
  else
    len <~ as_index length ;;
    assign_slice (repeat 0 M) (Z.to_nat k) (Z.to_nat (k + len))
                 (firstn (Z.to_nat len) diagonal).

(** [dia_matrix((data_arr, offsets), shape=(m, n))]: the shape must consist
    of non-negative integers. *)
Definition make_dia (data_arr : list (list Q)) (offsets : list Z)
    (m n : pynum) : result dia_matrix :=
  mi <~ as_index m ;;
  ni <~ as_index n ;;
  if ((mi <? 0) || (ni <? 0))%Z then Raise ValueError
  else Ok (DiaMatrix data_arr offsets (mi, ni)).

(** [scipy.sparse.diags(diagonals, offsets, shape, format)] *)
Definition sparse_diags (diagonals : list (list Q)) (offsets : list Z)
    (shp : pynum * pynum) (format : spformat) : result spmatrix :=
  let '(m, n) := shp in
  if negb (length diagonals =? length offsets)%nat then Raise ValueError
  else
    M0 <~ py_max_list
            (map (fun offset =>
                    py_add (py_min (py_add m (PyInt offset))
                                   (py_sub n (PyInt offset)))
                           (PyInt (Z.max 0 offset)))
                 offsets) ;;
    M <~ as_index (py_max (PyInt 0) M0) ;;
    let K := py_min m n in
    data_arr <~ mapM (fill_diagonal m n K (Z.to_nat M))
                     (combine diagonals offsets) ;;
    D <~ make_dia data_arr offsets m n ;;
    Ok (SpMatrix format D).

(** ** [moran_model.rate_matrix] *)

(** The body of [rate_matrix(n, sparse_format)]. *)
Definition rate_matrix (n : pynum) (sparse_format : spformat)
  : result spmatrix :=
  let i := arange (py_add n (PyInt 1)) in
  let diag := map (fun ik => ik * (num_val n - ik) / 2) i in
  let diags := [removelast diag; map (Qmult (-2)) diag; tl diag] in
  sparse_diags diags [1; 0; -1]%Z
               (py_add n (PyInt 1), py_add n (PyInt 1)) sparse_format.

(** ** The decorated [rate_matrix] *)

(** The positional arguments of a call: [(n,)] or [(n, sparse_format)]. *)
Inductive rm_args : Type :=
| Args1 (n : pynum)
| Args2 (n : pynum) (f : spformat).

(** The keyword arguments of a call: [sparse_format=f], or none. *)
Definition rm_kwargs : Type := option spformat.

(** Binding of the arguments of a call to the parameters of [rate_matrix];
    [sparse_format] defaults to ["csr"], and may not be given twice. *)
Definition rate_matrix_apply (a : rm_args) (kw : rm_kwargs) : result spmatrix :=
  match a, kw with
  | Args1 n, None => rate_matrix n CSR
  | Args1 n, Some f => rate_matrix n f
  | Args2 n f, None => rate_matrix n f
  | Args2 _ _, Some _ => Raise TypeError
  end.

Definition spformat_code (f : spformat) : nat :=
  match f with
  | CSR => 0 | CSC => 1 | COO => 2 | DIA => 3 | LIL => 4 | DOK => 5 | BSR => 6
  end.

Definition spformat_of_code (k : nat) : option spformat :=
  match k with
  | 0%nat => Some CSR | 1%nat => Some CSC | 2%nat => Some COO
  | 3%nat => Some DIA | 4%nat => Some LIL | 5%nat => Some DOK
  | 6%nat => Some BSR | _ => None
  end.

Lemma spformat_of_code_code (f : spformat) :
  spformat_of_code (spformat_code f) = Some f.
Proof. destruct f; reflexivity. Qed.

#[global] Instance spformat_eq_dec : EqDecision spformat.
Proof. solve_decision. Defined.

#[global] Instance spformat_countable : Countable spformat :=
  inj_countable spformat_code spformat_of_code spformat_of_code_code.

(** The dict key of a positional-argument tuple: numbers that compare equal
    (an int and the float of the same value) are the same key. *)
Definition num_key (a : pynum) : Z * positive :=
  (Qnum (Qred (num_val a)), Qden (Qred (num_val a))).

Definition rm_key (a : rm_args) : Z * positive * option spformat :=
  match a with
  | Args1 n => (num_key n, None)
  | Args2 n f => (num_key n, Some f)
  end.

Abbreviation rm_state :=
  (memo_state rm_args rm_kwargs spmatrix (Z * positive * option spformat)).

(** [rate_matrix] as the module exports it: [memoize(rate_matrix)]. *)
Definition rate_matrix_memo (a : rm_args) (kw : rm_kwargs) (s : rm_state)
  : result spmatrix * rm_state :=
  memoizer rm_key rate_matrix_apply a kw s.

(** ** Two-dimensional arrays *)

(** An array of shape [(r, c)] is the list of its [r] rows, each of length
    [c]; the empty list is the array of shape [(0, 0)]. *)
Definition array : Type := list (list Q).

Inductive axis2 : Type := Axis0 | Axis1.

Definition ncols (x : array) : nat := length (hd [] x).

Definition column (x : array) (c : nat) : list Q :=
  map (fun row => nth c row 0) x.

(** The slices a reduction along [axis] runs over: the whole array for
    [axis=None], the columns for [axis=0], the rows for [axis=1]. *)
Definition slices (x : array) (axis : option axis2) : list (list Q) :=
  match axis with
  | None => [concat x]
  | Some Axis0 => map (column x) (seq 0 (ncols x))
  | Some Axis1 => x
  end.

(** The slice an entry [(r, c)] belongs to; it is also the index at which the
    reduced array, with the reduced axis put back by [np.newaxis], is
    broadcast against the entry. *)
Definition along (axis : option axis2) (r c : nat) : nat :=
  match axis with
  | None => 0
  | Some Axis0 => c
  | Some Axis1 => r
  end.

Definition reduce_list (f : Q -> Q -> Q) (s : list Q) : Q :=
  fold_left f (tl s) (hd 0 s).

(** [np.amax] and [np.amin]: a reduction without identity raises
    [ValueError] when the reduced axis has length zero. *)
Definition reduce (f : Q -> Q -> Q) (x : array) (axis : option axis2)
  : result (list Q) :=
  if (length x =? 0)%nat
     || existsb (fun s => (length s =? 0)%nat) (slices x axis)
  then Raise ValueError
  else Ok (map (reduce_list f) (slices x axis)).

Definition amax := reduce Qmax.
Definition amin := reduce Qmin.

(** [x[x < t] = 0], where [t] is broadcast along [axis]. *)
Definition zero_below (x : array) (axis : option axis2) (t : list Q) : array :=
  imap (fun r row =>
          imap (fun c v => if Qltb v (nth (along axis r c) t 0) then 0 else v)
               row) x.

(** ** [util.truncate0] and [util.check_probs_matrix] *)

(** Both functions return the outcome of the call together with the
    contents of the caller's array [x] when the call ends: [truncate0]
    writes into [x] and returns that same array. *)
Definition truncate0 (x : array) (axis : option axis2) (strict : bool)
    (tol : Q) : result array * array :=
  match amax x axis, amin x axis with
  | Raise e, _ => (Raise e, x)
  | Ok _, Raise e => (Raise e, x)
  | Ok amaxes, Ok amins =>
      let maxes := map (fun a => Qmax a 1e-300) amaxes in
      let mins := map (fun a => Qmax (- a) 0.0) amins in
      if negb (forallb (fun b : bool => b)
                 (zip_with (fun mn mx => Qle_bool mn (tol * mx)) mins maxes))
      then (Raise AssertionError, x)
      else if strict then
        let x' := zero_below x axis (map (Qmult tol) maxes) in (Ok x', x')
      else
        let x' := zero_below x axis (map (Qmult 2) mins) in (Ok x', x')
  end.

Definition default_tol : Q := 1e-13.

(** [np.sum] of a one-dimensional array (exact, so in any order). *)
Definition sum (row : list Q) : Q := fold_right Qplus 0 row.



(** ** [util.transformed_expi] *)



Section TransformedExpi.

(** [scipy.special.expi] and [np.exp], on the values of floats. *)
Variable expi : Q -> Q.
Variable np_exp : Q -> Q.





End TransformedExpi.

(** ** [util.expm1d], on binary64 *)

Definition prec : Z := 53%Z.
Definition emax : Z := 1024%Z.

(** The float [1.0]. *)
Definition float_one : spec_float :=
  Eval vm_compute in binary_normalize prec emax 1 0 false.

Section Expm1d.

(** [np.expm1] *)
Variable np_expm1 : spec_float -> spec_float.

Definition expm1d (x : spec_float) : spec_float :=
  if SFeqb x (S754_zero false) then float_one
  else if SFeqb x (S754_infinity false) then S754_infinity false
  else SFdiv prec emax (np_expm1 x) x.

End Expm1d.

(** ** Specification predicates *)







(** The rate [rate(i) = i (n - i) / 2] of the Moran chain on [n] lineages,
    and the entry [(i, j)] of its generator. *)
Definition rate (n i : Z) : Q := inject_Z (i * (n - i)) / 2.

Definition moran_entry (n : Z) (i j : nat) : Q :=
  if (j =? i + 1)%nat then rate n (Z.of_nat i)
  else if (i =? j + 1)%nat then rate n (Z.of_nat i)
  else if (j =? i)%nat then - inject_Z (Z.of_nat i * (n - Z.of_nat i))
  else 0.

(** A lineage count that is negative or not an integer. *)
Definition invalid_size (n : pynum) : Prop :=
  num_val n < 0 \/ ~ (exists z : Z, num_val n == inject_Z z).

(** The lineage count among the positional arguments of a call. *)
Definition arg_n (a : rm_args) : pynum :=
  match a with
  | Args1 n => n
  | Args2 n _ => n
  end.

(** Every cache entry is a result the decorated object returned. *)
Definition cache_sound {A KW V K : Type} `{Countable K} (key_of : A -> K)
    (obj : A -> KW -> result V) (s : memo_state A KW V K) : Prop :=
  forall k v, cache s !! k = Some v ->
              exists a kw, key_of a = k /\ obj a kw = Ok v.

(** Greatest and least entry of a slice. *)
Definition is_max (mx : Q) (s : list Q) : Prop :=
  In mx s /\ forall v, In v s -> v <= mx.

Definition is_min (mn : Q) (s : list Q) : Prop :=
  In mn s /\ forall v, In v s -> mn <= v.

(** The rows of a well-formed array have the same length. *)
Definition rectangular (x : array) : Prop :=
  Forall (fun row => length row = ncols x) x.

(** The array has entries along the reduced axis. *)
Definition nonempty_along (x : array) (axis : option axis2) : Prop :=
  x <> [] /\ Forall (fun s => s <> []) (slices x axis).




(** [M.dot(v)]: the product of a sparse matrix with a vector; the entries
    of [v] beyond its length count as zero. *)
Definition matvec (M : spmatrix) (v : list Q) : list Q :=
  map (fun r => sum (map (fun c => get M r c * nth c v 0)
                         (seq 0 (Z.to_nat (snd (shape M))))))
      (seq 0 (Z.to_nat (fst (shape M)))).

(** [frozenset(kw.items())] for keyword arguments given as a list of
    name-value pairs. *)
Definition frozenset_items (kw : list (string * Z)) : gset (string * Z) :=
  list_to_set kw.

(** ** [util.cached_property] *)

Section CachedProperty.
Context {V : Type}.

(** A [cached_property] object: the name [func.__name__] and the function,
    applied to an instance (given by its identity). *)
Record cached_property : Type := CachedProperty {
  cp_name : string;
  cp_func : nat -> result V
}.

(** The [__dict__] of every instance (empty for an instance that has none
    yet) and, as an instrument, the calls made to wrapped functions. *)
Record cp_state : Type := CpState {
  dicts : gmap nat (gmap string V);
  cp_calls : list (string * nat)
}.

(** No instance has an attribute yet. *)
Definition cp_fresh : cp_state := CpState ∅ [].

Definition instance_dict (s : cp_state) (o : nat) : gmap string V :=
  match dicts s !! o with Some d => d | None => ∅ end.

(** [cached_property.__get__(self, obj, cls)] for an instance [obj]:
    [value = obj.__dict__[self.func.__name__] = self.func(obj)]. *)
Definition cp_get (self : cached_property) (o : nat) (s : cp_state)
  : result V * cp_state :=
  let called := cp_calls s ++ [(cp_name self, o)] in
  match cp_func self o with
  | Raise e => (Raise e, CpState (dicts s) called)
  | Ok value =>
      (Ok value,
       CpState (<[o := <[cp_name self := value]> (instance_dict s o)]> (dicts s))
               called)
  end.

(** [cached_property.__get__(self, None, cls)], the access through the
    class, returns the descriptor itself. *)
Definition cp_get_class (self : cached_property) : cached_property := self.

(** The expression [obj.attr] when the class of [obj] binds [attr] to the
    descriptor [self]: a descriptor with [__get__] only gives way to an
    entry of the instance [__dict__]. *)
Definition getattr (attr : string) (self : cached_property) (o : nat)
    (s : cp_state) : result V * cp_state :=
  match instance_dict s o !! attr with
  | Some v => (Ok v, s)
  | None => cp_get self o s
  end.

(** [del obj.attr]: removes the entry of the instance [__dict__]; [None] is
    the [AttributeError] raised when there is none. *)
Definition delattr (attr : string) (o : nat) (s : cp_state) : option cp_state :=
  match instance_dict s o !! attr with
  | Some _ =>
      Some (CpState (<[o := delete attr (instance_dict s o)]> (dicts s))
                    (cp_calls s))
  | None => None
  end.

(** [m] evaluations of [obj.attr] in a row. *)
Fixpoint getattr_times (m : nat) (attr : string) (self : cached_property)
    (o : nat) (s : cp_state) : list (result V) * cp_state :=
  match m with
  | O => ([], s)
  | S m' =>
      let '(r, s1) := getattr attr self o s in
      let '(rs, s2) := getattr_times m' attr self o s1 in
      (r :: rs, s2)
  end.

End CachedProperty.

Arguments cached_property : clear implicits.
Arguments cp_state : clear implicits.
Arguments cp_fresh : clear implicits.

(** ** [util.grouper] *)

(** One of the [n] arguments of [izip_longest]: the iterator they all share
    while it is live, the fill value once it has been found exhausted. *)
Inductive zip_slot : Type := Live | Spent.

Section Grouper.
Context {A : Type}.

(** One round of [izip_longest] over [slots], with [rest] the items the
    shared iterator still has and [num_active] the arguments not yet found
    exhausted: the tuple, the slots, the items left and the count after the
    round, or [None] when the last active argument is found exhausted. *)
Fixpoint zip_round (fillvalue : A) (slots : list zip_slot) (rest : list A)
    (num_active : nat) : option (list A * list zip_slot * list A * nat) :=
  match slots with
  | [] => Some ([], [], rest, num_active)
  | Spent :: slots' =>
      match zip_round fillvalue slots' rest num_active with
      | Some (vals, sl, r, na) => Some (fillvalue :: vals, Spent :: sl, r, na)
      | None => None
      end
  | Live :: slots' =>
      match rest with
      | v :: rest' =>
          match zip_round fillvalue slots' rest' num_active with
          | Some (vals, sl, r, na) => Some (v :: vals, Live :: sl, r, na)
          | None => None
          end
      | [] =>
          if (num_active - 1 =? 0)%nat then None
          else
            match zip_round fillvalue slots' [] (num_active - 1) with
            | Some (vals, sl, r, na) => Some (fillvalue :: vals, Spent :: sl, r, na)
            | None => None
            end
      end
  end.

(** The tuples [izip_longest] yields, in at most [fuel] rounds. *)
Fixpoint zip_loop (fuel : nat) (fillvalue : A) (slots : list zip_slot)
    (rest : list A) (num_active : nat) : list (list A) :=
  match fuel with
  | O => []
  | S fuel' =>
      match zip_round fillvalue slots rest num_active with
      | None => []
      | Some (vals, sl, r, na) => vals :: zip_loop fuel' fillvalue sl r na
      end
  end.

(** [grouper(n, iterable, fillvalue)]: [izip_longest] over [n] references
    to one iterator of [iterable]; without arguments it yields nothing. *)
Definition grouper (n : Z) (iterable : list A) (fillvalue : A)
  : list (list A) :=
  let args := repeat Live (Z.to_nat n) in
  match args with
  | [] => []
  | _ :: _ =>
      zip_loop (S (S (length iterable))) fillvalue args iterable (length args)
  end.

End Grouper.

(** ** [util.H] *)

(** [np.arange(start, stop)] for ints. *)
Definition arange_from (start stop : Z) : list Q :=
  map (fun k => inject_Z (start + Z.of_nat k)) (seq 0 (Z.to_nat (stop - start))).

(** [H(n)], the sum of [1. / k] for [k = 1 .. n]. *)
Definition H (n : Z) : Q :=
  sum (map (fun k => 1.0 / k) (arange_from 1 (n + 1))).

(** ** [moran_model.moran_eigensystem] *)

Section MoranEigensystem.
Context {Vec Mat : Type}.

(** [np.linalg.eig] and [np.linalg.inv], as functions of the array they are
    given; [None] is [numpy.linalg.LinAlgError].  [eig] returns the
    eigenvalues and the matrix of eigenvectors, in this order. *)
Variable linalg_eig : array -> option (Vec * Mat).
Variable linalg_inv : Mat -> option Mat.

(** The outcome of [moran_eigensystem(n)]: the tuple [(P, d, inv(P))], the
    error [rate_matrix] raised, or [LinAlgError]. *)
Inductive eig_result : Type :=
| Eigensystem (P : Mat) (d : Vec) (Pinv : Mat)
| RateMatrixError (e : exn)
| LinAlgError.

(** The state of the module: the closure state of the decorated
    [rate_matrix], the dict [cache] of the decorated [moran_eigensystem],
    and, as an instrument, the arrays [np.linalg.eig] was called on. *)
Record me_state : Type := MeState {
  rate_matrix_state : rm_state;
  me_cache : gmap (Z * positive) (Mat * Vec * Mat);
  eig_calls : list array
}.

(** No call made yet. *)
Definition me_fresh : me_state := MeState memoize ∅ [].

(** The body of [moran_eigensystem(n)]; [rate_matrix] is the decorated
    function of the module. *)
Definition moran_eigensystem_body (n : pynum) (s : me_state)
  : eig_result * me_state :=
  let '(r, rs) := rate_matrix_memo (Args1 n) None (rate_matrix_state s) in
  match r with
  | Raise e => (RateMatrixError e, MeState rs (me_cache s) (eig_calls s))
  | Ok rm =>
      let M := todense rm in
      let s1 := MeState rs (me_cache s) (eig_calls s ++ [M]) in
      match linalg_eig M with
      | None => (LinAlgError, s1)
      | Some (d, P) =>
          match linalg_inv P with
          | None => (LinAlgError, s1)
          | Some Pinv => (Eigensystem P d Pinv, s1)
          end
      end
  end.

(** [moran_eigensystem] as the module exports it, called with [n] as its one
    positional argument: the [memoizer] of [util.memoize] around the body. *)
Definition moran_eigensystem (n : pynum) (s : me_state)
  : eig_result * me_state :=
  match me_cache s !! num_key n with
  | None =>
      match moran_eigensystem_body n s with
      | (Eigensystem P d Pinv, s1) =>
          (Eigensystem P d Pinv,
           MeState (rate_matrix_state s1)
                   (<[num_key n := (P, d, Pinv)]> (me_cache s1))
                   (eig_calls s1))
      | (r, s1) => (r, s1)
      end
  | Some (P, d, Pinv) => (Eigensystem P d Pinv, s)
  end.

(** A call to one of the two functions of the module. *)
Inductive me_call : Type :=
| CallRateMatrix (a : rm_args) (kw : rm_kwargs)
| CallEigensystem (n : pynum).

Definition me_step (s : me_state) (c : me_call) : me_state :=
  match c with
  | CallRateMatrix a kw =>
      MeState (snd (rate_matrix_memo a kw (rate_matrix_state s)))
              (me_cache s) (eig_calls s)
  | CallEigensystem n => snd (moran_eigensystem n s)
  end.

(** The state after a sequence of calls. *)
Definition me_run (cs : list me_call) (s : me_state) : me_state :=
  fold_left me_step cs s.

(** What the caches hold: [rate_matrix]'s cache holds results of its body,
    and every entry of [moran_eigensystem]'s cache is the decomposition of
    the rate matrix of a non-negative int, which [rate_matrix] has cached. *)
Definition me_inv (s : me_state) : Prop :=
  cache_sound rm_key rate_matrix_apply (rate_matrix_state s)
  /\ forall k P d Pinv,
       me_cache s !! k = Some (P, d, Pinv) ->
       exists z M,
         (0 <= z)%Z /\ k = num_key (PyInt z)
         /\ rate_matrix (PyInt z) CSR = Ok M
         /\ linalg_eig (todense M) = Some (d, P)
         /\ linalg_inv P = Some Pinv
         /\ exists M', cache (rate_matrix_state s) !! (k, None) = Some M'.

End MoranEigensystem.

Arguments eig_result : clear implicits.
Arguments me_state : clear implicits.
Arguments me_fresh : clear implicits.

(** * Properties *)

(** ** The function-level cache *)

Section MemoizeFacts.
Context {A KW V K : Type} `{Countable K}.
Variable key_of : A -> K.
Variable obj : A -> KW -> result V.

Lemma memoizer_hit (args : A) (kwargs : KW) (s : memo_state A KW V K) (v : V) :
  cache s !! key_of args = Some v ->
  memoizer key_of obj args kwargs s = (Ok v, s).
Proof.
  intros Hc. unfold memoizer, getitem. rewrite Hc. reflexivity.
Qed.

Lemma memoizer_miss (args : A) (kwargs : KW) (s : memo_state A KW V K) (v : V) :
  cache s !! key_of args = None ->
  obj args kwargs = Ok v ->
  memoizer key_of obj args kwargs s
  = (Ok v, MemoState (<[key_of args := v]> (cache s))
                     (calls s ++ [(args, kwargs)])).
Proof.
  intros Hc Ho. unfold memoizer, getitem. rewrite Hc, Ho. simpl.
  rewrite lookup_insert_eq. reflexivity.
Qed.

Lemma memoizer_raise (args : A) (kwargs : KW) (s : memo_state A KW V K) (e : exn) :
  cache s !! key_of args = None ->
  obj args kwargs = Raise e ->
  memoizer key_of obj args kwargs s
  = (Raise e, MemoState (cache s) (calls s ++ [(args, kwargs)])).
Proof.
  intros Hc Ho. unfold memoizer. rewrite Hc, Ho. reflexivity.
Qed.

(** A call never removes or changes an entry of the cache. *)
Lemma memoizer_keeps (args : A) (kwargs : KW) (s : memo_state A KW V K)
    (k : K) (v : V) :
  cache s !! k = Some v ->
  cache (snd (memoizer key_of obj args kwargs s)) !! k = Some v.
Proof.
  intros Hk. unfold memoizer.
  destruct (cache s !! key_of args) as [w|] eqn:Hc; simpl; [exact Hk|].
  destruct (obj args kwargs) as [w|e]; simpl; [|exact Hk].
  rewrite lookup_insert_ne; [exact Hk|].
  intros Heq. rewrite Heq in Hc. congruence.
Qed.

Lemma run_calls_keeps (cs : list (A * KW)) (s : memo_state A KW V K)
    (k : K) (v : V) :
  cache s !! k = Some v ->
  cache (snd (run_calls key_of obj cs s)) !! k = Some v.
Proof.
  revert s. induction cs as [|[a kw] cs IH]; intros s Hk; simpl; [exact Hk|].
  pose proof (memoizer_keeps a kw s k v Hk) as H1.
  destruct (memoizer key_of obj a kw s) as [r s1]. simpl in H1.
  specialize (IH s1 H1).
  destruct (run_calls key_of obj cs s1) as [rs s2]. exact IH.
Qed.

(** A call that returns leaves its result in the cache. *)
Lemma memoizer_stores (args : A) (kwargs : KW) (s : memo_state A KW V K) (v : V) :
  fst (memoizer key_of obj args kwargs s) = Ok v ->
  cache (snd (memoizer key_of obj args kwargs s)) !! key_of args = Some v.
Proof.
  unfold memoizer, getitem.
  destruct (cache s !! key_of args) as [w|] eqn:Hc; simpl.
  - rewrite Hc. intros [= ->]. reflexivity.
  - destruct (obj args kwargs) as [w|e]; simpl; [|discriminate].
    rewrite lookup_insert_eq. intros [= ->]. reflexivity.
Qed.

(** Once a call with [args] has returned [v], every later call with the same
    positional arguments returns [v] and leaves the state as it is, whatever
    its keyword arguments. *)
Lemma memoizer_later_call (args : A) (kw1 kw2 : KW) (s : memo_state A KW V K)
    (v : V) (cs : list (A * KW)) :
  fst (memoizer key_of obj args kw1 s) = Ok v ->
  let s' := snd (run_calls key_of obj cs
                   (snd (memoizer key_of obj args kw1 s))) in
  memoizer key_of obj args kw2 s' = (Ok v, s').
Proof.
  intros Hv s'. apply memoizer_hit. subst s'.
  apply run_calls_keeps, memoizer_stores, Hv.
Qed.

End MemoizeFacts.

Section MemoizePure.
Context {A V K : Type} `{Countable K}.
Variable key_of : A -> K.
Hypothesis key_of_inj : forall a b, key_of a = key_of b -> a = b.
Variable f : A -> V.




End MemoizePure.

(** ** The instance-method cache *)

Section MemoizeInstancePure.
Context {A KW V KA KK : Type} `{Countable KA} `{Countable KK}.
Variable args_key : A -> KA.
Variable kw_key : KW -> KK.
Hypothesis args_key_inj : forall a b, args_key a = args_key b -> a = b.
Hypothesis kw_key_inj : forall a b, kw_key a = kw_key b -> a = b.
Variable id : nat.
Variable g : nat -> A -> KW -> V.




End MemoizeInstancePure.

(** ** The rate matrix *)

Lemma py_min_int (a b : Z) : py_min (PyInt a) (PyInt b) = PyInt (Z.min a b).
Proof.
  unfold py_min, py_ltb. destruct (Z.ltb_spec b a).
  - rewrite Z.min_r by lia. reflexivity.
  - rewrite Z.min_l by lia. reflexivity.
Qed.

Lemma py_max_int (a b : Z) : py_max (PyInt a) (PyInt b) = PyInt (Z.max a b).
Proof.
  unfold py_max, py_ltb. destruct (Z.ltb_spec a b).
  - rewrite Z.max_r by lia. reflexivity.
  - rewrite Z.max_l by lia. reflexivity.
Qed.

Lemma diag_length_int (m n K offset : Z) :
  diag_length (PyInt m) (PyInt n) (PyInt K) offset
  = PyInt (Z.min (Z.min (m + offset) (n - offset)) K).
Proof. unfold diag_length. simpl. rewrite !py_min_int. reflexivity. Qed.

Lemma length_arange_int (z : Z) : length (arange (PyInt z)) = Z.to_nat z.
Proof. unfold arange. rewrite length_map, length_seq. reflexivity. Qed.

Lemma nth_arange_int (z : Z) (i : nat) :
  (i < Z.to_nat z)%nat -> nth i (arange (PyInt z)) 0 = inject_Z (Z.of_nat i).
Proof.
  intros Hi. unfold arange.
  rewrite (nth_indep _ 0 (inject_Z (Z.of_nat 0))) by (rewrite length_map, length_seq; exact Hi).
  rewrite (map_nth (fun k => inject_Z (Z.of_nat k))). rewrite seq_nth by exact Hi.
  reflexivity.
Qed.

Lemma skipn_repeat_sub {A : Type} (a : A) (k n : nat) :
  skipn k (repeat a n) = repeat a (n - k).
Proof.
  revert k. induction n as [|n IH]; intros [|k]; simpl; try reflexivity.
  apply IH.
Qed.

(** The three rounds of the loop of [scipy.sparse.diags] on a tridiagonal
    input of the right lengths. *)
Lemma fill_super (N : nat) (d : list Q) :
  length d = N ->
  fill_diagonal (PyInt (Z.of_nat (S N))) (PyInt (Z.of_nat (S N)))
                (PyInt (Z.of_nat (S N))) (S N) (d, 1%Z)
  = Ok (0 :: d).
Proof.
  intros Hd. unfold fill_diagonal. rewrite diag_length_int.
  replace (Z.min (Z.min (Z.of_nat (S N) + 1) (Z.of_nat (S N) - 1)) (Z.of_nat (S N)))
    with (Z.of_nat N) by lia.
  unfold py_ltb. destruct (Z.ltb_spec (Z.of_nat N) 0); [lia|].
  cbn [as_index bind]. unfold assign_slice.
  rewrite repeat_length.
  replace (Z.to_nat (Z.max 0 1)) with 1%nat by reflexivity.
  replace (Z.to_nat (Z.max 0 1 + Z.of_nat N)) with (S N) by lia.
  rewrite Nat2Z.id, firstn_all2 by lia.
  replace (Nat.min 1 (S N)) with 1%nat by lia.
  replace (Nat.max 1 (Nat.min (S N) (S N))) with (S N) by lia.
  replace (S N - 1)%nat with N by lia.
  rewrite Hd, Nat.eqb_refl. rewrite skipn_repeat_sub, Nat.sub_diag. simpl.
  rewrite app_nil_r. reflexivity.
Qed.

Lemma fill_main (N : nat) (d : list Q) :
  length d = S N ->
  fill_diagonal (PyInt (Z.of_nat (S N))) (PyInt (Z.of_nat (S N)))
                (PyInt (Z.of_nat (S N))) (S N) (d, 0%Z)
  = Ok d.
Proof.
  intros Hd. unfold fill_diagonal. rewrite diag_length_int.
  replace (Z.min (Z.min (Z.of_nat (S N) + 0) (Z.of_nat (S N) - 0)) (Z.of_nat (S N)))
    with (Z.of_nat (S N)) by lia.
  unfold py_ltb. destruct (Z.ltb_spec (Z.of_nat (S N)) 0); [lia|].
  cbn [as_index bind]. unfold assign_slice.
  rewrite repeat_length.
  replace (Z.to_nat (Z.max 0 0)) with 0%nat by reflexivity.
  replace (Z.to_nat (Z.max 0 0 + Z.of_nat (S N))) with (S N) by lia.
  rewrite Nat2Z.id, firstn_all2 by lia.
  replace (Nat.min 0 (S N)) with 0%nat by lia.
  replace (Nat.max 0 (Nat.min (S N) (S N))) with (S N) by lia.
  replace (S N - 0)%nat with (S N) by lia.
  rewrite Hd, Nat.eqb_refl. rewrite skipn_repeat_sub, Nat.sub_diag. simpl.
  rewrite app_nil_r. reflexivity.
Qed.

Lemma fill_sub (N : nat) (d : list Q) :
  length d = N ->
  fill_diagonal (PyInt (Z.of_nat (S N))) (PyInt (Z.of_nat (S N)))
                (PyInt (Z.of_nat (S N))) (S N) (d, (-1)%Z)
  = Ok (d ++ [0]).
Proof.
  intros Hd. unfold fill_diagonal. rewrite diag_length_int.
  replace (Z.min (Z.min (Z.of_nat (S N) + -1) (Z.of_nat (S N) - -1)) (Z.of_nat (S N)))
    with (Z.of_nat N) by lia.
  unfold py_ltb. destruct (Z.ltb_spec (Z.of_nat N) 0); [lia|].
  cbn [as_index bind]. unfold assign_slice.
  rewrite repeat_length.
  replace (Z.to_nat (Z.max 0 (-1))) with 0%nat by reflexivity.
  replace (Z.to_nat (Z.max 0 (-1) + Z.of_nat N)) with N by lia.
  rewrite Nat2Z.id, firstn_all2 by lia.
  replace (Nat.min 0 (S N)) with 0%nat by lia.
  replace (Nat.max 0 (Nat.min N (S N))) with N by lia.
  replace (N - 0)%nat with N by lia.
  rewrite Hd, Nat.eqb_refl. rewrite skipn_repeat_sub.
  replace (S N - N)%nat with 1%nat by lia. reflexivity.
Qed.

Lemma removelast_len {A : Type} (l : list A) :
  length (removelast l) = Nat.pred (length l).
Proof.
  induction l as [|a l IH]; [reflexivity|].
  destruct l as [|b l]; [reflexivity|].
  change (removelast (a :: b :: l)) with (a :: removelast (b :: l)).
  cbn [length] in *. rewrite IH. reflexivity.
Qed.

Lemma removelast_nth {A : Type} (l : list A) (d : A) (i : nat) :
  (S i < length l)%nat -> nth i (removelast l) d = nth i l d.
Proof.
  revert i. induction l as [|a l IH]; intros i Hi; [simpl in Hi; lia|].
  destruct l as [|b l]; [simpl in Hi; lia|].
  change (removelast (a :: b :: l)) with (a :: removelast (b :: l)).
  destruct i as [|i]; [reflexivity|].
  change (nth i (removelast (b :: l)) d = nth i (b :: l) d).
  apply IH. cbn [length] in *. lia.
Qed.

Lemma tl_nth {A : Type} (l : list A) (d : A) (i : nat) :
  nth i (tl l) d = nth (S i) l d.
Proof. destruct l; [destruct i|]; reflexivity. Qed.

Lemma rate_matrix_dia (N : nat) (fmt : spformat) :
  let diag := map (fun ik => ik * (inject_Z (Z.of_nat N) - ik) / 2)
                  (arange (PyInt (Z.of_nat N + 1))) in
  rate_matrix (PyInt (Z.of_nat N)) fmt
  = Ok (SpMatrix fmt
          (DiaMatrix [0 :: removelast diag; map (Qmult (-2)) diag; tl diag ++ [0]]
                     [1; 0; -1]%Z (Z.of_nat N + 1, Z.of_nat N + 1)%Z)).
Proof.
  intros diag. unfold rate_matrix. cbn [py_add num_val]. fold diag.
  assert (Hlen : length diag = S N).
  { unfold diag. rewrite length_map, length_arange_int. lia. }
  replace (Z.of_nat N + 1)%Z with (Z.of_nat (S N)) in * by lia.
  unfold sparse_diags. cbn [length Nat.eqb negb map py_add py_sub py_max_list bind].
  rewrite !py_min_int. cbn [py_add fold_left]. rewrite !py_max_int.
  replace (Z.max 0 _) with (Z.of_nat (S N)) by lia.
  cbn [as_index bind]. rewrite Nat2Z.id.
  cbn [combine mapM].
  replace (Z.min (Z.of_nat (S N)) (Z.of_nat (S N))) with (Z.of_nat (S N)) by lia.
  rewrite fill_super by (rewrite removelast_len, Hlen; reflexivity).
  cbn [bind].
  rewrite fill_main by (rewrite length_map; exact Hlen).
  cbn [bind].
  rewrite fill_sub by (destruct diag; [discriminate|simpl in *; lia]).
  cbn [bind]. unfold make_dia. cbn [as_index bind].
  destruct (Z.ltb_spec (Z.of_nat (S N)) 0); [lia|]. reflexivity.
Qed.

Lemma dia_get_tridiag (a b c : list Q) (sh : Z * Z) (i j : nat) :
  dia_get (DiaMatrix [a; b; c] [1; 0; -1]%Z sh) i j
  = (if (Z.of_nat j - Z.of_nat i =? 1)%Z then nth j a 0 else 0)
    + ((if (Z.of_nat j - Z.of_nat i =? 0)%Z then nth j b 0 else 0)
       + ((if (Z.of_nat j - Z.of_nat i =? -1)%Z then nth j c 0 else 0) + 0)).
Proof. reflexivity. Qed.

Lemma diag_nth (N i : nat) :
  (i <= N)%nat ->
  nth i (map (fun ik => ik * (inject_Z (Z.of_nat N) - ik) / 2)
             (arange (PyInt (Z.of_nat N + 1)))) 0
  == rate (Z.of_nat N) (Z.of_nat i).
Proof.
  intros Hi.
  set (f := fun ik => ik * (inject_Z (Z.of_nat N) - ik) / 2).
  rewrite (nth_indep _ 0 (f 0))
    by (rewrite length_map, length_arange_int; lia).
  rewrite (map_nth f), nth_arange_int by lia.
  unfold f, rate. rewrite inject_Z_mult. unfold Zminus.
  rewrite inject_Z_plus, inject_Z_opp. reflexivity.
Qed.

Lemma rate_0 (n : Z) : rate n 0 == 0.
Proof. unfold rate. reflexivity. Qed.

Lemma rate_n (n : Z) : rate n n == 0.
Proof. unfold rate. rewrite Z.sub_diag, Z.mul_0_r. reflexivity. Qed.

Lemma rate_matrix_entry (N : nat) (fmt : spformat) (M : spmatrix) (i j : nat) :
  rate_matrix (PyInt (Z.of_nat N)) fmt = Ok M ->
  (i <= N)%nat -> (j <= N)%nat ->
  get M i j == moran_entry (Z.of_nat N) i j.
Proof.
  rewrite rate_matrix_dia. intros [= <-] Hi Hj.
  unfold get. cbn [sp_dia]. rewrite dia_get_tridiag. unfold moran_entry.
  destruct (Nat.eqb_spec j (i + 1)) as [->|H1].
  { replace (Z.of_nat (i + 1) - Z.of_nat i =? 1)%Z with true
      by (symmetry; apply Z.eqb_eq; lia).
    replace (Z.of_nat (i + 1) - Z.of_nat i =? 0)%Z with false
      by (symmetry; apply Z.eqb_neq; lia).
    replace (Z.of_nat (i + 1) - Z.of_nat i =? -1)%Z with false
      by (symmetry; apply Z.eqb_neq; lia).
    replace (i + 1)%nat with (S i) by lia. cbn [nth].
    rewrite removelast_nth
      by (rewrite length_map, length_arange_int; lia).
    rewrite diag_nth by lia. ring. }
  destruct (Nat.eqb_spec i (j + 1)) as [->|H2].
  { replace (Z.of_nat j - Z.of_nat (j + 1) =? 1)%Z with false
      by (symmetry; apply Z.eqb_neq; lia).
    replace (Z.of_nat j - Z.of_nat (j + 1) =? 0)%Z with false
      by (symmetry; apply Z.eqb_neq; lia).
    replace (Z.of_nat j - Z.of_nat (j + 1) =? -1)%Z with true
      by (symmetry; apply Z.eqb_eq; lia).
    rewrite app_nth1
      by (destruct (map _ _) eqn:E;
          [apply (f_equal (@length Q)) in E|apply (f_equal (@length Q)) in E];
          rewrite length_map, length_arange_int in E; simpl in *; lia).
    rewrite tl_nth. replace (S j) with (j + 1)%nat by lia.
    rewrite diag_nth by lia. ring. }
  destruct (Nat.eqb_spec j i) as [->|H3].
  { replace (Z.of_nat i - Z.of_nat i =? 1)%Z with false
      by (symmetry; apply Z.eqb_neq; lia).
    replace (Z.of_nat i - Z.of_nat i =? 0)%Z with true
      by (symmetry; apply Z.eqb_eq; lia).
    replace (Z.of_nat i - Z.of_nat i =? -1)%Z with false
      by (symmetry; apply Z.eqb_neq; lia).
    rewrite (nth_indep _ 0 (Qmult (-2) 0))
      by (rewrite !length_map, length_arange_int; lia).
    rewrite map_nth, diag_nth by lia. unfold rate. field. }
  replace (Z.of_nat j - Z.of_nat i =? 1)%Z with false
    by (symmetry; apply Z.eqb_neq; lia).
  replace (Z.of_nat j - Z.of_nat i =? 0)%Z with false
    by (symmetry; apply Z.eqb_neq; lia).
  replace (Z.of_nat j - Z.of_nat i =? -1)%Z with false
    by (symmetry; apply Z.eqb_neq; lia).
  ring.
Qed.

Lemma sum_map_ext {A : Type} (f g : A -> Q) (l : list A) :
  (forall a, In a l -> f a == g a) -> sum (map f l) == sum (map g l).
Proof.
  induction l as [|a l IH]; intros Hfg; [reflexivity|].
  unfold sum in *. cbn [map fold_right].
  rewrite (Hfg a) by (left; reflexivity).
  rewrite IH by (intros b Hb; apply Hfg; right; exact Hb). reflexivity.
Qed.

Lemma sum_map_plus {A : Type} (f g : A -> Q) (l : list A) :
  sum (map (fun a => f a + g a) l) == sum (map f l) + sum (map g l).
Proof.
  induction l as [|a l IH]; [reflexivity|].
  unfold sum in *. cbn [map fold_right]. rewrite IH. ring.
Qed.

Lemma sum_indicator (k : nat) (v : Q) (a L : nat) :
  sum (map (fun j => if (j =? k)%nat then v else 0) (seq a L))
  == if ((a <=? k) && (k <? a + L))%nat then v else 0.
Proof.
  revert a. induction L as [|L IH]; intros a.
  - cbn [seq map]. unfold sum. cbn [fold_right].
    destruct (Nat.leb_spec a k), (Nat.ltb_spec k (a + 0)); try reflexivity; lia.
  - cbn [seq map]. unfold sum in *. cbn [fold_right]. rewrite IH.
    destruct (Nat.eqb_spec a k), (Nat.leb_spec a k), (Nat.leb_spec (S a) k),
      (Nat.ltb_spec k (a + S L)), (Nat.ltb_spec k (S a + L));
      cbn [andb]; try lia; ring.
Qed.

Lemma moran_row_sum (N i : nat) :
  (i <= N)%nat ->
  sum (map (moran_entry (Z.of_nat N) i) (seq 0 (S N))) == 0.
Proof.
  intros Hi.
  set (r := rate (Z.of_nat N) (Z.of_nat i)).
  set (r' := if (1 <=? i)%nat then r else 0).
  rewrite (sum_map_ext _
             (fun j => (if (j =? i + 1)%nat then r else 0)
                       + ((if (j =? i - 1)%nat then r' else 0)
                          + (if (j =? i)%nat then -2 * r else 0)))).
  - rewrite sum_map_plus, sum_map_plus, !sum_indicator. cbn [Nat.leb andb].
    assert (H0 : i = 0%nat -> r == 0) by (intros ->; apply rate_0).
    assert (HN : i = N -> r == 0) by (intros ->; apply rate_n).
    unfold r'.
    destruct (Nat.ltb_spec (i + 1) (0 + S N)), (Nat.ltb_spec (i - 1) (0 + S N)),
      (Nat.ltb_spec i (0 + S N)), (Nat.leb_spec 1 i); try lia.
    + ring.
    + rewrite H0 by lia. ring.
    + rewrite HN by lia. ring.
    + rewrite HN by lia. ring.
  - intros j _. unfold moran_entry. fold r. unfold r'.
    destruct (Nat.eqb_spec j (i + 1)), (Nat.eqb_spec i (j + 1)),
      (Nat.eqb_spec j i), (Nat.eqb_spec j (i - 1)), (Nat.leb_spec 1 i);
      try lia; try ring; unfold r, rate; field.
Qed.

Lemma todense_row (M : spmatrix) (i : nat) :
  (Z.of_nat i < fst (shape M))%Z ->
  nth i (todense M) []
  = map (fun c => get M i c) (seq 0 (Z.to_nat (snd (shape M)))).
Proof.
  intros Hi. unfold todense.
  set (F := fun r => map (fun c => get M r c) (seq 0 (Z.to_nat (snd (shape M))))).
  rewrite (nth_indep _ [] (F 0%nat)) by (rewrite length_map, length_seq; lia).
  rewrite (map_nth F), seq_nth by lia. reflexivity.
Qed.

Lemma rate_matrix_ok (n : Z) (fmt : spformat) :
  (0 <= n)%Z ->
  exists M, rate_matrix (PyInt n) fmt = Ok M
            /\ shape M = ((n + 1)%Z, (n + 1)%Z) /\ sp_format M = fmt.
Proof.
  intros Hn. rewrite <- (Z2Nat.id n Hn). rewrite rate_matrix_dia.
  eexists. split; [reflexivity|]. split; reflexivity.
Qed.


(** *** Sizes that are refused, and the decorated function *)

Lemma py_min_float (a b : Q) : exists q, py_min (PyFloat a) (PyFloat b) = PyFloat q.
Proof. unfold py_min. destruct (py_ltb _ _); eauto. Qed.

Lemma fill_diagonal_float (m n K : Q) (M : nat) (d : list Q * Z) :
  exists e, fill_diagonal (PyFloat m) (PyFloat n) (PyFloat K) M d = Raise e.
Proof.
  destruct d as [diagonal offset]. unfold fill_diagonal, diag_length.
  cbn [py_add py_sub num_val].
  destruct (py_min_float (m + inject_Z offset) (n - inject_Z offset)) as [q ->].
  destruct (py_min_float q K) as [q' ->].
  destruct (py_ltb (PyFloat q') (PyInt 0)); eauto.
Qed.

Lemma rate_matrix_float (q : Q) (fmt : spformat) :
  exists e, rate_matrix (PyFloat q) fmt = Raise e.
Proof.
  unfold rate_matrix, sparse_diags.
  cbn [py_add num_val length Nat.eqb negb map py_sub py_max_list bind].
  destruct (as_index _) as [M|e]; [|cbn [bind]; eauto].
  cbn [bind combine mapM].
  destruct (py_min_float (q + inject_Z 1) (q + inject_Z 1)) as [K ->].
  destruct (fill_diagonal_float (q + inject_Z 1) (q + inject_Z 1) K (Z.to_nat M)
              (removelast (map (fun ik => ik * (q - ik) / 2)
                               (arange (PyFloat (q + inject_Z 1)))), 1%Z))
    as [e ->].
  cbn [bind]. eauto.
Qed.

Lemma rate_matrix_negative (z : Z) (fmt : spformat) :
  (z < 0)%Z -> rate_matrix (PyInt z) fmt = Raise ValueError.
Proof.
  intros Hz. unfold rate_matrix, sparse_diags.
  cbn [py_add num_val length Nat.eqb negb map py_sub py_max_list bind].
  rewrite !py_min_int. cbn [py_add fold_left]. rewrite !py_max_int.
  cbn [as_index bind combine mapM].
  unfold fill_diagonal at 1. rewrite diag_length_int.
  unfold py_ltb. destruct (Z.ltb_spec (Z.min (Z.min (z + 1 + 1) (z + 1 - 1))
                                             (Z.min (z + 1) (z + 1))) 0); [|lia].
  reflexivity.
Qed.

Lemma rate_matrix_returns (n : pynum) (fmt : spformat) (M : spmatrix) :
  rate_matrix n fmt = Ok M -> exists z, n = PyInt z /\ (0 <= z)%Z.
Proof.
  intros HM. destruct n as [z|q].
  - exists z. split; [reflexivity|]. destruct (Z.lt_ge_cases z 0) as [Hz|Hz]; [|exact Hz].
    rewrite rate_matrix_negative in HM by exact Hz. discriminate.
  - destruct (rate_matrix_float q fmt) as [e He]. congruence.
Qed.

Lemma rate_matrix_invalid (n : pynum) (fmt : spformat) :
  invalid_size n -> exists e, rate_matrix n fmt = Raise e.
Proof.
  intros Hn. destruct (rate_matrix n fmt) as [M|e] eqn:HM; [|eauto].
  exfalso. apply rate_matrix_returns in HM. destruct HM as (z & -> & Hz).
  destruct Hn as [Hn|Hn].
  - cbn [num_val] in Hn. apply Qlt_not_le in Hn. apply Hn.
    change 0 with (inject_Z 0). rewrite <- Zle_Qle. exact Hz.
  - apply Hn. exists z. reflexivity.
Qed.

Lemma rate_matrix_apply_returns (a : rm_args) (kw : rm_kwargs) (M : spmatrix) :
  rate_matrix_apply a kw = Ok M -> exists z, arg_n a = PyInt z /\ (0 <= z)%Z.
Proof.
  destruct a as [n|n f], kw as [f'|]; cbn [rate_matrix_apply arg_n];
    try discriminate; apply rate_matrix_returns.
Qed.

Lemma num_key_val (a b : pynum) : num_key a = num_key b -> num_val a == num_val b.
Proof.
  unfold num_key. intros [= Hn Hd].
  rewrite <- (Qred_correct (num_val a)), <- (Qred_correct (num_val b)).
  unfold Qeq. rewrite Hn, Hd. reflexivity.
Qed.

Lemma rm_key_n (a b : rm_args) : rm_key a = rm_key b -> num_key (arg_n a) = num_key (arg_n b).
Proof. destruct a, b; cbn [rm_key arg_n]; congruence. Qed.

Section MemoizeSound.
Context {A KW V K : Type} `{Countable K}.
Variable key_of : A -> K.
Variable obj : A -> KW -> result V.

Lemma memoizer_sound (args : A) (kwargs : KW) (s : memo_state A KW V K) :
  cache_sound key_of obj s ->
  cache_sound key_of obj (snd (memoizer key_of obj args kwargs s)).
Proof.
  intros Hs. unfold memoizer.
  destruct (cache s !! key_of args) as [w|] eqn:Hc; cbn [snd]; [exact Hs|].
  destruct (obj args kwargs) as [w|e] eqn:Ho; cbn [snd]; [|exact Hs].
  intros k v. cbn [cache].
  destruct (decide (key_of args = k)) as [<-|Hne].
  - rewrite lookup_insert_eq. intros [= <-]. eauto.
  - rewrite lookup_insert_ne by exact Hne. apply Hs.
Qed.

Lemma run_calls_sound (cs : list (A * KW)) (s : memo_state A KW V K) :
  cache_sound key_of obj s ->
  cache_sound key_of obj (snd (run_calls key_of obj cs s)).
Proof.
  revert s. induction cs as [|[a kw] cs IH]; intros s Hs; [exact Hs|].
  cbn [run_calls]. pose proof (memoizer_sound a kw s Hs) as H1.
  destruct (memoizer key_of obj a kw s) as [r s1]. cbn [snd] in H1.
  specialize (IH s1 H1).
  destruct (run_calls key_of obj cs s1) as [rs s2]. exact IH.
Qed.

Lemma memoize_sound : cache_sound key_of obj memoize.
Proof. intros k v Hk. cbn in Hk. rewrite lookup_empty in Hk. discriminate. Qed.

End MemoizeSound.

(** The decorated [rate_matrix], called with both arguments positional after
    any earlier calls, returns what the body returns. *)
Lemma rate_matrix_memo_positional (n : Z) (fmt : spformat) (M : spmatrix)
    (cs : list (rm_args * rm_kwargs)) :
  rate_matrix (PyInt n) fmt = Ok M ->
  fst (rate_matrix_memo (Args2 (PyInt n) fmt) None
         (snd (run_calls rm_key rate_matrix_apply cs memoize))) = Ok M.
Proof.
  intros HM. set (s := snd (run_calls rm_key rate_matrix_apply cs memoize)).
  assert (Hs : cache_sound rm_key rate_matrix_apply s)
    by apply run_calls_sound, memoize_sound.
  unfold rate_matrix_memo.
  destruct (cache s !! rm_key (Args2 (PyInt n) fmt)) as [M'|] eqn:Hc.
  - rewrite (memoizer_hit rm_key rate_matrix_apply _ None s M' Hc). cbn [fst].
    destruct (Hs _ _ Hc) as (a' & kw' & Hkey & Hok).
    destruct a' as [n'|n' f']; [discriminate|].
    cbn [rm_key] in Hkey.
    assert (Hz : num_key n' = num_key (PyInt n)) by congruence.
    assert (Hf : f' = fmt) by congruence. subst f'.
    destruct kw' as [f''|]; [discriminate|]. cbn [rate_matrix_apply] in Hok.
    destruct (rate_matrix_returns _ _ _ Hok) as (z & -> & _).
    apply num_key_val in Hz. cbn [num_val] in Hz.
    rewrite inject_Z_injective in Hz. subst z. congruence.
  - rewrite (memoizer_miss rm_key rate_matrix_apply (Args2 (PyInt n) fmt) None
               s M Hc HM). reflexivity.
Qed.

(** C1.  For every integer [n >= 0] and every storage format,
    [rate_matrix(n, format)] returns a matrix of shape [(n+1, n+1)] in that
    format whose entry [(i, i+1)] is [i(n-i)/2], whose entry [(i, i-1)] is
    [i(n-i)/2], whose diagonal entry [(i, i)] is [-(i(n-i))] and whose other
    entries are zero; every row sums to zero, rows [0] and [n] are zero, and
    for [n = 2] the dense matrix is [[0,0,0],[0.5,-1.0,0.5],[0,0,0]].  The
    decorated [rate_matrix], called with [(n, format)] after any earlier
    calls, returns this matrix. *)
Theorem rate_matrix_tridiagonal (n : Z) (fmt : spformat) :
  (0 <= n)%Z ->
  exists M,
    rate_matrix (PyInt n) fmt = Ok M
    /\ shape M = ((n + 1)%Z, (n + 1)%Z)
    /\ sp_format M = fmt
    /\ (forall i, (Z.of_nat i < n)%Z ->
                  get M i (i + 1) == inject_Z (Z.of_nat i * (n - Z.of_nat i)) / 2)
    /\ (forall i, (1 <= Z.of_nat i <= n)%Z ->
                  get M i (i - 1) == inject_Z (Z.of_nat i * (n - Z.of_nat i)) / 2)
    /\ (forall i, (Z.of_nat i <= n)%Z ->
                  get M i i == - inject_Z (Z.of_nat i * (n - Z.of_nat i)))
    /\ (forall i, (1 <= Z.of_nat i < n)%Z ->
                  get M i i == - (get M i (i - 1) + get M i (i + 1)))
    /\ (forall i j, (Z.of_nat i <= n)%Z -> (Z.of_nat j <= n)%Z ->
                    j <> (i + 1)%nat -> i <> (j + 1)%nat -> j <> i ->
                    get M i j == 0)
    /\ (forall i, (Z.of_nat i <= n)%Z -> sum (nth i (todense M) []) == 0)
    /\ (forall j, (Z.of_nat j <= n)%Z ->
                  get M 0 j == 0 /\ get M (Z.to_nat n) j == 0)
    /\ (n = 2%Z ->
        Forall2 (Forall2 Qeq) (todense M)
                [[0; 0; 0]; [0.5; -1.0; 0.5]; [0; 0; 0]])
    /\ (forall cs : list (rm_args * rm_kwargs),
           fst (rate_matrix_memo (Args2 (PyInt n) fmt) None
                  (snd (run_calls rm_key rate_matrix_apply cs memoize)))
           = Ok M).
Proof.
  intros Hn. destruct (rate_matrix_ok n fmt Hn) as (M & HM & Hshape & Hfmt).
  exists M. split; [exact HM|]. split; [exact Hshape|]. split; [exact Hfmt|].
  assert (He : forall i j, (Z.of_nat i <= n)%Z -> (Z.of_nat j <= n)%Z ->
                           get M i j == moran_entry n i j).
  { intros i j Hi Hj. revert HM. rewrite <- (Z2Nat.id n Hn). intros HM.
    apply (rate_matrix_entry _ fmt); [exact HM|lia|lia]. }
  split; [|split; [|split; [|split; [|split; [|split; [|split; [|split]]]]]]].
  - intros i Hi. rewrite He by lia. unfold moran_entry.
    rewrite Nat.eqb_refl. reflexivity.
  - intros i Hi. rewrite He by lia. unfold moran_entry.
    destruct (Nat.eqb_spec (i - 1) (i + 1)); [lia|].
    destruct (Nat.eqb_spec i (i - 1 + 1)); [reflexivity|lia].
  - intros i Hi. rewrite He by lia. unfold moran_entry.
    destruct (Nat.eqb_spec i (i + 1)); [lia|].
    rewrite Nat.eqb_refl. reflexivity.
  - intros i Hi. rewrite !He by lia. unfold moran_entry.
    rewrite (Nat.eqb_refl (i + 1)).
    destruct (Nat.eqb_spec i (i + 1)); [lia|]. rewrite Nat.eqb_refl.
    destruct (Nat.eqb_spec (i - 1) (i + 1)); [lia|].
    destruct (Nat.eqb_spec i (i - 1 + 1)); [|lia].
    unfold rate. field.
  - intros i j Hi Hj H1 H2 H3. rewrite He by lia. unfold moran_entry.
    destruct (Nat.eqb_spec j (i + 1)); [lia|].
    destruct (Nat.eqb_spec i (j + 1)); [lia|].
    destruct (Nat.eqb_spec j i); [lia|]. reflexivity.
  - intros i Hi. rewrite todense_row by (rewrite Hshape; simpl; lia).
    rewrite Hshape. cbn [snd].
    rewrite (sum_map_ext _ (moran_entry n i)).
    + replace (Z.to_nat (n + 1)) with (S (Z.to_nat n)) by lia.
      rewrite <- (Z2Nat.id n Hn) at 1. apply moran_row_sum. lia.
    + intros j Hj. apply in_seq in Hj. apply He; lia.
  - intros j Hj. split; rewrite He by lia; unfold moran_entry.
    + destruct (Nat.eqb_spec j (0 + 1)); [apply rate_0|].
      destruct (Nat.eqb_spec 0 (j + 1)); [apply rate_0|].
      destruct (Nat.eqb_spec j 0); reflexivity.
    + rewrite (Z2Nat.id n Hn).
      destruct (Nat.eqb_spec j (Z.to_nat n + 1)); [apply rate_n|].
      destruct (Nat.eqb_spec (Z.to_nat n) (j + 1)); [apply rate_n|].
      destruct (Nat.eqb_spec j (Z.to_nat n)); [|reflexivity].
      rewrite Z.sub_diag, Z.mul_0_r. reflexivity.
  - intros ->. vm_compute in HM. injection HM as <-.
    repeat constructor; reflexivity.
  - intros cs. apply rate_matrix_memo_positional, HM.
Qed.

Lemma rate_matrix_tridiagonal_witness :
  exists M,
    rate_matrix (PyInt 4) CSC = Ok M
    /\ shape M = (5%Z, 5%Z)
    /\ sp_format M = CSC
    /\ get M 1 2 == 1.5
    /\ get M 2 2 == -4.
Proof.
  destruct (rate_matrix_tridiagonal 4 CSC ltac:(lia))
    as (M & HM & Hs & Hf & Hup & _ & Hd & _).
  exists M. split; [exact HM|]. split; [exact Hs|]. split; [exact Hf|].
  split.
  - rewrite (Hup 1%nat) by (simpl; lia). reflexivity.
  - rewrite (Hd 2%nat) by (simpl; lia). reflexivity.
Defined.

(** C9.  For every negative or non-integer [n], the body of [rate_matrix]
    raises an error and returns no matrix, for every format; and so does the
    decorated [rate_matrix], after any calls made before, without adding to
    its cache. *)
Theorem rate_matrix_fails_fast (n : pynum) :
  invalid_size n ->
  (forall fmt, exists e, rate_matrix n fmt = Raise e)
  /\ (forall (cs : list (rm_args * rm_kwargs)) (a : rm_args) (kw : rm_kwargs),
         arg_n a = n ->
         let s := snd (run_calls rm_key rate_matrix_apply cs memoize) in
         exists e, rate_matrix_memo a kw s
                   = (Raise e, MemoState (cache s) (calls s ++ [(a, kw)]))).
Proof.
  intros Hn. split; [intros fmt; apply rate_matrix_invalid, Hn|].
  intros cs a kw Ha s.
  assert (Hs : cache_sound rm_key rate_matrix_apply s)
    by apply run_calls_sound, memoize_sound.
  assert (Hraise : exists e, rate_matrix_apply a kw = Raise e).
  { destruct a as [n'|n' f], kw as [f'|]; cbn [rate_matrix_apply arg_n] in *;
      subst n'; eauto; apply rate_matrix_invalid, Hn. }
  destruct Hraise as [e He]. exists e.
  apply memoizer_raise; [|exact He].
  destruct (cache s !! rm_key a) as [M|] eqn:Hc; [exfalso|reflexivity].
  destruct (Hs _ _ Hc) as (a' & kw' & Hkey & Hok).
  apply rate_matrix_apply_returns in Hok. destruct Hok as (z & Hz & Hz0).
  apply rm_key_n, num_key_val in Hkey. rewrite Hz, Ha in Hkey.
  cbn [num_val] in Hkey. destruct Hn as [Hn|Hn].
  - rewrite <- Hkey in Hn. apply Qlt_not_le in Hn. apply Hn.
    change 0 with (inject_Z 0). rewrite <- Zle_Qle. exact Hz0.
  - apply Hn. exists z. symmetry. exact Hkey.
Qed.

Lemma rate_matrix_fails_fast_witness :
  (exists e, rate_matrix (PyInt (-1)) CSR = Raise e)
  /\ (exists e, rate_matrix (PyFloat 2.5) CSR = Raise e).
Proof.
  split.
  - refine (proj1 (rate_matrix_fails_fast (PyInt (-1)) _) CSR).
    left. reflexivity.
  - refine (proj1 (rate_matrix_fails_fast (PyFloat 2.5) _) CSR).
    right. intros [z Hz]. unfold Qeq in Hz. simpl in Hz. lia.
Defined.

(** ** Compute-once semantics of the caches *)

(** A call of a memoized method never removes or changes an entry of the
    cache of any instance. *)
Lemma call_keeps {A KW V KA KK : Type} `{Countable KA} `{Countable KK}
    (args_key : A -> KA) (kw_key : KW -> KK) (self : memoize_instance A KW V)
    (o : nat) (args : A) (kw : KW) (s : inst_state A KW V KA KK)
    (o' : nat) (c : gmap (nat * KA * KK) V) (key : nat * KA * KK) (v : V) :
  caches s !! o' = Some c -> c !! key = Some v ->
  exists c', caches (snd (call args_key kw_key self o args kw s)) !! o' = Some c'
             /\ c' !! key = Some v.
Proof.
  intros Ho' Hk. unfold call.
  destruct (decide (o = o')) as [<-|Hne].
  - rewrite Ho'.
    destruct (c !! (func_id self, args_key args, kw_key kw)) as [w|] eqn:Hc;
      cbn [snd caches].
    + exists c. rewrite lookup_insert_eq. split; [reflexivity|exact Hk].
    + destruct (func self o args kw) as [w|e]; cbn [snd caches];
        rewrite lookup_insert_eq; eexists; (split; [reflexivity|]);
        [|exact Hk].
      rewrite lookup_insert_ne; [exact Hk|].
      intros Heq. rewrite Heq in Hc. congruence.
  - exists c. split; [|exact Hk].
    destruct ((match caches s !! o with Some c0 => c0 | None => ∅ end)
                !! (func_id self, args_key args, kw_key kw)) as [w|];
      [|destruct (func self o args kw) as [w|e]];
      cbn [snd caches]; rewrite lookup_insert_ne by exact Hne; exact Ho'.
Qed.




(** C10.  The memoizer keys its cache on the positional arguments only: once
    a call has returned [v], every later call with the same positional
    arguments returns [v] and does not run the decorated object, whatever
    its keyword arguments.  In particular, after [rate_matrix(n)] has been
    called on a memoizer that had no entry for [n], every later call
    [rate_matrix(n, sparse_format=f)] returns the matrix cached then, which
    is in CSR format. *)
Theorem memoize_ignores_kwargs
    {A KW V K : Type} `{Countable K} (key_of : A -> K)
    (obj : A -> KW -> result V) (n : Z) (s0 : rm_state) :
  (0 <= n)%Z ->
  cache s0 !! rm_key (Args1 (PyInt n)) = None ->
  (forall (args : A) (kw1 kw2 : KW) (s : memo_state A KW V K) (v : V)
          (cs : list (A * KW)),
      fst (memoizer key_of obj args kw1 s) = Ok v ->
      let s' := snd (run_calls key_of obj cs
                       (snd (memoizer key_of obj args kw1 s))) in
      memoizer key_of obj args kw2 s' = (Ok v, s'))
  /\ (exists M,
         fst (rate_matrix_memo (Args1 (PyInt n)) None s0) = Ok M
         /\ rate_matrix (PyInt n) CSR = Ok M
         /\ sp_format M = CSR
         /\ forall (cs : list (rm_args * rm_kwargs)) (f : spformat),
             let s' := snd (run_calls rm_key rate_matrix_apply cs
                              (snd (rate_matrix_memo (Args1 (PyInt n)) None s0))) in
             rate_matrix_memo (Args1 (PyInt n)) (Some f) s' = (Ok M, s')).
Proof.
  intros Hn Hs0. split.
  - intros args kw1 kw2 s v cs Hv. apply memoizer_later_call, Hv.
  - destruct (rate_matrix_ok n CSR Hn) as (M & HM & _ & Hf).
    exists M.
    assert (H1 : fst (rate_matrix_memo (Args1 (PyInt n)) None s0) = Ok M).
    { unfold rate_matrix_memo.
      rewrite (memoizer_miss rm_key rate_matrix_apply (Args1 (PyInt n)) None s0 M
                 Hs0 HM).
      reflexivity. }
    split; [exact H1|]. split; [exact HM|]. split; [exact Hf|].
    intros cs f. apply memoizer_later_call, H1.
Qed.

Lemma memoize_ignores_kwargs_witness :
  exists M,
    fst (rate_matrix_memo (Args1 (PyInt 2)) None memoize) = Ok M
    /\ sp_format M = CSR
    /\ fst (rate_matrix_memo (Args1 (PyInt 2)) (Some CSC)
              (snd (rate_matrix_memo (Args1 (PyInt 2)) None memoize)))
       = Ok M.
Proof.
  destruct (memoize_ignores_kwargs rm_key rate_matrix_apply 2 memoize
              ltac:(lia) ltac:(reflexivity))
    as (_ & M & H1 & _ & Hf & Hlater).
  exists M. split; [exact H1|]. split; [exact Hf|].
  specialize (Hlater [] CSC). cbn [run_calls snd] in Hlater.
  rewrite Hlater. reflexivity.
Defined.

(** ** [truncate0] *)

Lemma tiny_pos : 0 < 1e-300.
Proof. reflexivity. Qed.

Lemma Qltb_lt (a b : Q) : Qltb a b = true <-> a < b.
Proof.
  unfold Qltb. rewrite negb_true_iff. split.
  - intros Hb. apply Qnot_le_lt. intros Hle.
    apply Qle_bool_iff in Hle. congruence.
  - intros Hlt. destruct (Qle_bool b a) eqn:Hb; [|reflexivity].
    apply Qle_bool_iff in Hb. exfalso. exact (Qlt_not_le _ _ Hlt Hb).
Qed.

Lemma Qltb_ge (a b : Q) : Qltb a b = false <-> b <= a.
Proof.
  unfold Qltb. rewrite negb_false_iff. apply Qle_bool_iff.
Qed.

Lemma Qmax_cases (a b : Q) : Qmax a b = a \/ Qmax a b = b.
Proof.
  unfold Qmax, GenericMinMax.gmax. destruct (a ?= b); auto.
Qed.

Lemma Qmin_cases (a b : Q) : Qmin a b = a \/ Qmin a b = b.
Proof.
  unfold Qmin, GenericMinMax.gmin. destruct (a ?= b); auto.
Qed.

Lemma fold_max_spec (l : list Q) (a : Q) :
  In (fold_left Qmax l a) (a :: l)
  /\ forall v, In v (a :: l) -> v <= fold_left Qmax l a.
Proof.
  revert a. induction l as [|b l IH]; intros a; cbn [fold_left].
  - split; [left; reflexivity|]. intros v [<-|[]]. apply Qle_refl.
  - destruct (IH (Qmax a b)) as [Hin Hub]. split.
    + destruct Hin as [Hin|Hin]; [|right; right; exact Hin].
      rewrite <- Hin. destruct (Qmax_cases a b) as [->| ->];
        [left|right; left]; reflexivity.
    + intros v [Hv|[Hv|Hv]]; subst.
      * apply Qle_trans with (Qmax v b); [apply Q.le_max_l|].
        apply Hub. left. reflexivity.
      * apply Qle_trans with (Qmax a v); [apply Q.le_max_r|].
        apply Hub. left. reflexivity.
      * apply Hub. right. exact Hv.
Qed.

Lemma fold_min_spec (l : list Q) (a : Q) :
  In (fold_left Qmin l a) (a :: l)
  /\ forall v, In v (a :: l) -> fold_left Qmin l a <= v.
Proof.
  revert a. induction l as [|b l IH]; intros a; cbn [fold_left].
  - split; [left; reflexivity|]. intros v [<-|[]]. apply Qle_refl.
  - destruct (IH (Qmin a b)) as [Hin Hlb]. split.
    + destruct Hin as [Hin|Hin]; [|right; right; exact Hin].
      rewrite <- Hin. destruct (Qmin_cases a b) as [->| ->];
        [left|right; left]; reflexivity.
    + intros v [Hv|[Hv|Hv]]; subst.
      * apply Qle_trans with (Qmin v b); [|apply Q.le_min_l].
        apply Hlb. left. reflexivity.
      * apply Qle_trans with (Qmin a v); [|apply Q.le_min_r].
        apply Hlb. left. reflexivity.
      * apply Hlb. right. exact Hv.
Qed.

Lemma reduce_list_max (s : list Q) : s <> [] -> is_max (reduce_list Qmax s) s.
Proof.
  destruct s as [|a l]; [congruence|]. intros _. apply fold_max_spec.
Qed.

Lemma reduce_list_min (s : list Q) : s <> [] -> is_min (reduce_list Qmin s) s.
Proof.
  destruct s as [|a l]; [congruence|]. intros _. apply fold_min_spec.
Qed.

Lemma is_max_unique (a b : Q) (s : list Q) : is_max a s -> is_max b s -> a == b.
Proof.
  intros [Ha Hua] [Hb Hub]. apply Qle_antisym; auto.
Qed.


Lemma zip_with_map_same {A B C D : Type} (f : B -> C -> D) (g : A -> B)
    (h : A -> C) (l : list A) :
  zip_with f (map g l) (map h l) = map (fun a => f (g a) (h a)) l.
Proof.
  induction l as [|a l IH]; [reflexivity|]. cbn [map zip_with].
  rewrite IH. reflexivity.
Qed.


Lemma forallb_map_true {A : Type} (p : A -> bool) (l : list A) :
  forallb (fun b : bool => b) (map p l) = true <-> forall a, In a l -> p a = true.
Proof.
  rewrite forallb_forall. split.
  - intros Hall a Ha. apply Hall, in_map, Ha.
  - intros Hall b Hb. apply in_map_iff in Hb. destruct Hb as (a & <- & Ha). auto.
Qed.

(** The emptiness test of a reduction. *)
Lemma reduce_test_false (x : array) (axis : option axis2) :
  (length x =? 0)%nat || existsb (fun s => (length s =? 0)%nat) (slices x axis)
  = false <-> nonempty_along x axis.
Proof.
  rewrite orb_false_iff. unfold nonempty_along. split.
  - intros [Hx Hs]. split.
    + intros ->. discriminate.
    + apply List.Forall_forall. intros s Hin ->.
      assert (Ht : existsb (fun s => (length s =? 0)%nat) (slices x axis) = true)
        by (apply existsb_exists; exists []; split; [exact Hin|reflexivity]).
      congruence.
  - intros [Hx Hs]. split.
    + destruct x; [congruence|reflexivity].
    + destruct (existsb _ _) eqn:He; [|reflexivity].
      apply existsb_exists in He. destruct He as (s & Hin & Hl).
      rewrite List.Forall_forall in Hs. specialize (Hs s Hin).
      destruct s; [congruence|discriminate].
Qed.


(** The outcome of [truncate0] once its reductions have succeeded. *)
Lemma truncate0_nonempty (x : array) (axis : option axis2) (strict : bool)
    (tol : Q) :
  nonempty_along x axis ->
  truncate0 x axis strict tol
  = let maxes := map (fun s => Qmax (reduce_list Qmax s) 1e-300) (slices x axis) in
    let mins := map (fun s => Qmax (- reduce_list Qmin s) 0.0) (slices x axis) in
    if forallb (fun b : bool => b)
         (map (fun s => Qle_bool (Qmax (- reduce_list Qmin s) 0.0)
                                 (tol * Qmax (reduce_list Qmax s) 1e-300))
              (slices x axis))
    then if strict
         then (Ok (zero_below x axis (map (Qmult tol) maxes)),
               zero_below x axis (map (Qmult tol) maxes))
         else (Ok (zero_below x axis (map (Qmult 2) mins)),
               zero_below x axis (map (Qmult 2) mins))
    else (Raise AssertionError, x).
Proof.
  intros Hne. apply reduce_test_false in Hne.
  unfold truncate0, amax, amin, reduce. rewrite Hne.
  rewrite !map_map, zip_with_map_same.
  destruct (forallb _ _); reflexivity.
Qed.

Lemma truncate0_empty (x : array) (axis : option axis2) (strict : bool)
    (tol : Q) :
  ~ nonempty_along x axis ->
  truncate0 x axis strict tol = (Raise ValueError, x).
Proof.
  intros Hne. unfold truncate0, amax, amin, reduce.
  destruct (_ || _) eqn:He; [reflexivity|].
  apply reduce_test_false in He. contradiction.
Qed.

Lemma nonempty_along_dec (x : array) (axis : option axis2) :
  nonempty_along x axis \/ ~ nonempty_along x axis.
Proof.
  destruct ((length x =? 0)%nat
            || existsb (fun s => (length s =? 0)%nat) (slices x axis)) eqn:He.
  - right. intros Hne. apply reduce_test_false in Hne. congruence.
  - left. apply reduce_test_false, He.
Qed.






Lemma imap_id {A : Type} (f : nat -> A -> A) (l : list A) :
  (forall i a, In a l -> f i a = a) -> imap f l = l.
Proof.
  revert f. induction l as [|a l IH]; intros f Hf; [reflexivity|].
  cbn [imap]. rewrite (Hf 0%nat a) by (left; reflexivity).
  rewrite IH; [reflexivity|]. intros i b Hb. apply Hf. right. exact Hb.
Qed.

Lemma slices_nonneg (x : array) (axis : option axis2) (s : list Q) (v : Q) :
  (forall row, In row x -> forall w, In w row -> 0 <= w) ->
  In s (slices x axis) -> In v s -> 0 <= v.
Proof.
  intros Hx Hs Hv. destruct axis as [[|]|]; cbn [slices] in Hs.
  - apply in_map_iff in Hs. destruct Hs as (c & <- & _).
    unfold column in Hv. apply in_map_iff in Hv. destruct Hv as (row & <- & Hrow).
    destruct (nth_in_or_default c row 0) as [Hin| ->].
    + exact (Hx row Hrow _ Hin).
    + apply Qle_refl.
  - exact (Hx s Hs v Hv).
  - destruct Hs as [<-|[]]. apply in_concat in Hv.
    destruct Hv as (row & Hrow & Hv). exact (Hx row Hrow v Hv).
Qed.




(** ** [check_probs_matrix] *)







(** ** [transformed_expi] *)











(** ** [expm1d] *)

(** C6.  [expm1d(x)] returns exactly [1.0] when [x] is zero (of either
    sign), returns [+inf] when [x] is [+inf], whatever [np.expm1] would
    compute there, and returns [np.expm1(x) / x] for every other float [x]
    (negative infinity and NaN included). *)
Theorem expm1d_cases (np_expm1 : spec_float -> spec_float) :
  (forall s, expm1d np_expm1 (S754_zero s) = float_one)
  /\ float_one = binary_normalize prec emax 1 0 false
  /\ (forall other_expm1 : spec_float -> spec_float,
         expm1d other_expm1 (S754_infinity false) = S754_infinity false)
  /\ (forall x, (forall s, x <> S754_zero s) -> x <> S754_infinity false ->
                expm1d np_expm1 x = SFdiv prec emax (np_expm1 x) x).
Proof.
  split; [intros []; reflexivity|]. split; [reflexivity|].
  split; [reflexivity|].
  intros x Hz Hinf. unfold expm1d.
  destruct x as [s|s| |s m e].
  - exfalso. exact (Hz s eq_refl).
  - destruct s; [reflexivity|]. exfalso. exact (Hinf eq_refl).
  - reflexivity.
  - destruct s; reflexivity.
Qed.

Lemma expm1d_cases_witness :
  expm1d (fun y => y) float_one = float_one.
Proof.
  rewrite (proj2 (proj2 (proj2 (expm1d_cases (fun y => y)))) float_one).
  - vm_compute. reflexivity.
  - intros s. discriminate.
  - discriminate.
Defined.

(** * Further properties *)

(** ** Arrays: entries by index *)

Lemma lookup_map {A B : Type} (f : A -> B) (l : list A) (i : nat) :
  map f l !! i = f <$> (l !! i).
Proof.
  revert i. induction l as [|a l IH]; intros [|i]; try reflexivity. apply IH.
Qed.

Lemma lookup_nth {A : Type} (l : list A) (i : nat) (a d : A) :
  l !! i = Some a -> nth i l d = a.
Proof.
  revert i. induction l as [|b l IH]; intros [|i] Hi; try discriminate.
  - injection Hi as ->. reflexivity.
  - apply IH, Hi.
Qed.

Lemma lookup_In {A : Type} (l : list A) (i : nat) (a : A) :
  l !! i = Some a -> In a l.
Proof.
  revert i. induction l as [|b l IH]; intros [|i] Hi; try discriminate.
  - injection Hi as ->. left. reflexivity.
  - right. exact (IH i Hi).
Qed.

Lemma In_lookup {A : Type} (l : list A) (a : A) :
  In a l -> exists i, l !! i = Some a.
Proof.
  induction l as [|b l IH]; intros Ha; [destruct Ha|].
  destruct Ha as [->|Ha]; [exists 0%nat; reflexivity|].
  destruct (IH Ha) as [i Hi]. exists (S i). exact Hi.
Qed.

Lemma lookup_concat_In {A : Type} (x : list (list A)) (r c : nat)
    (row : list A) (v : A) :
  x !! r = Some row -> row !! c = Some v -> In v (concat x).
Proof.
  intros Hr Hc. apply in_concat. exists row.
  split; [exact (lookup_In _ _ _ Hr)|exact (lookup_In _ _ _ Hc)].
Qed.

(** An entry of a well-formed array lies in the slice it is compared with. *)
Lemma entry_in_slice (x : array) (axis : option axis2) (r c : nat)
    (row : list Q) (v : Q) :
  rectangular x -> x !! r = Some row -> row !! c = Some v ->
  exists s, slices x axis !! along axis r c = Some s /\ In v s.
Proof.
  intros Hrect Hr Hc. destruct axis as [[|]|]; cbn [slices along].
  - exists (column x c). split.
    + rewrite lookup_map.
      assert (Hlt : (c < ncols x)%nat).
      { unfold rectangular in Hrect. rewrite List.Forall_forall in Hrect.
        rewrite <- (Hrect row (lookup_In _ _ _ Hr)).
        apply lookup_lt_Some in Hc. exact Hc. }
      rewrite lookup_seq_lt by exact Hlt. reflexivity.
    + unfold column. apply in_map_iff. exists row.
      split; [apply lookup_nth, Hc|exact (lookup_In _ _ _ Hr)].
  - exists row. split; [exact Hr|exact (lookup_In _ _ _ Hc)].
  - exists (concat x). split; [reflexivity|].
    exact (lookup_concat_In x r c row v Hr Hc).
Qed.

Lemma zero_below_lookup (x : array) (axis : option axis2) (t : list Q)
    (r : nat) (row' : list Q) :
  zero_below x axis t !! r = Some row' ->
  exists row,
    x !! r = Some row
    /\ row' = imap (fun c v => if Qltb v (nth (along axis r c) t 0) then 0 else v)
                   row.
Proof.
  unfold zero_below, array in *. rewrite list_lookup_imap.
  destruct (x !! r) as [row|]; simpl; [|discriminate].
  intros [= <-]. exists row. split; reflexivity.
Qed.

Lemma zero_below_entry (x : array) (axis : option axis2) (t : list Q)
    (r c : nat) (row' : list Q) (v' : Q) :
  zero_below x axis t !! r = Some row' -> row' !! c = Some v' ->
  exists row v,
    x !! r = Some row /\ row !! c = Some v
    /\ v' = (if Qltb v (nth (along axis r c) t 0) then 0 else v).
Proof.
  intros Hr Hc. destruct (zero_below_lookup _ _ _ _ _ Hr) as (row & Hx & ->).
  rewrite list_lookup_imap in Hc.
  destruct (row !! c) as [v|] eqn:Hv; simpl in Hc; [|discriminate].
  injection Hc as <-. exists row, v. auto.
Qed.

(** What a successful call of [truncate0] has checked and computed. *)
Lemma truncate0_returns (x y : array) (axis : option axis2) (strict : bool)
    (tol : Q) :
  fst (truncate0 x axis strict tol) = Ok y ->
  nonempty_along x axis
  /\ (forall s, In s (slices x axis) ->
                Qmax (- reduce_list Qmin s) 0 <= tol * Qmax (reduce_list Qmax s) 1e-300)
  /\ y = zero_below x axis
           (map (fun s => if strict
                          then tol * Qmax (reduce_list Qmax s) 1e-300
                          else 2 * Qmax (- reduce_list Qmin s) 0.0)
                (slices x axis)).
Proof.
  destruct (nonempty_along_dec x axis) as [Hne|Hne];
    [|rewrite (truncate0_empty x axis strict tol Hne); discriminate].
  rewrite (truncate0_nonempty x axis strict tol Hne). cbv zeta.
  destruct (forallb _ _) eqn:Hall; [|discriminate].
  intros Hy. split; [exact Hne|]. split.
  - intros s Hs. rewrite forallb_map_true in Hall. specialize (Hall s Hs).
    apply Qle_bool_iff in Hall.
    assert (Hz : 0.0 == 0) by reflexivity. rewrite Hz in Hall. exact Hall.
  - rewrite !map_map in Hy. destruct strict; injection Hy as <-; reflexivity.
Qed.

Lemma nth_map_lookup {A : Type} (f : A -> Q) (l : list A) (i : nat) (a : A) :
  l !! i = Some a -> nth i (map f l) 0 = f a.
Proof.
  intros Hi. apply lookup_nth. rewrite lookup_map, Hi. reflexivity.
Qed.

Lemma truncate0_entries_nonneg (x y : array) (axis : option axis2)
    (strict : bool) (tol : Q) :
  rectangular x ->
  fst (truncate0 x axis strict tol) = Ok y ->
  forall row, In row y -> forall v, In v row -> 0 <= v.
Proof.
  intros Hrect Hy row' Hrow' v' Hv'.
  destruct (truncate0_returns x y axis strict tol Hy) as (Hne & Hchk & ->).
  destruct (In_lookup _ _ Hrow') as [r Hr]. destruct (In_lookup _ _ Hv') as [c Hc].
  destruct (zero_below_entry _ _ _ _ _ _ _ Hr Hc) as (row & v & Hxr & Hxc & ->).
  destruct (Qltb v _) eqn:Hlt; [apply Qle_refl|].
  apply Qltb_ge in Hlt.
  destruct (entry_in_slice x axis r c row v Hrect Hxr Hxc) as (s & Hs & Hin).
  rewrite (nth_map_lookup _ _ _ s Hs) in Hlt.
  assert (Hs' : s <> []) by (intros ->; destruct Hin).
  destruct (reduce_list_min s Hs') as [_ Hmin]. specialize (Hmin v Hin).
  pose proof (Q.le_max_l (- reduce_list Qmin s) 0) as Hm.
  assert (Hz : 0.0 == 0) by reflexivity.
  destruct strict.
  - specialize (Hchk s (lookup_In _ _ _ Hs)). lra.
  - rewrite Hz in Hlt. lra.
Qed.

(** The array [truncate0] returns is the caller's array, written in place. *)
Lemma truncate0_alias (x y : array) (axis : option axis2) (strict : bool)
    (tol : Q) :
  fst (truncate0 x axis strict tol) = Ok y ->
  truncate0 x axis strict tol = (Ok y, y).
Proof.
  unfold truncate0. destruct (amax x axis); [|discriminate].
  destruct (amin x axis); [|discriminate].
  destruct (negb _); [discriminate|].
  destruct strict; cbn [fst]; intros [= <-]; reflexivity.
Qed.

(** X1.  Whenever [truncate0] returns, for any axis, [strict] and [tol], no
    entry of the returned array is negative; and the returned array is the
    caller's array [x], which then holds these entries. *)
Theorem truncate0_result_nonneg (x y : array) (axis : option axis2)
    (strict : bool) (tol : Q) :
  rectangular x ->
  fst (truncate0 x axis strict tol) = Ok y ->
  (forall row, In row y -> forall v, In v row -> 0 <= v)
  /\ snd (truncate0 x axis strict tol) = y.
Proof.
  intros Hrect Hy. split.
  - exact (truncate0_entries_nonneg x y axis strict tol Hrect Hy).
  - rewrite (truncate0_alias x y axis strict tol Hy). reflexivity.
Qed.

Lemma truncate0_result_nonneg_witness :
  (forall row, In row [[1; 0]; [0; 0.5]] -> forall v, In v row -> 0 <= v)
  /\ snd (truncate0 [[1; -1e-14]; [1e-15; 0.5]] None false default_tol)
     = [[1; 0]; [0; 0.5]].
Proof.
  refine (truncate0_result_nonneg [[1; -1e-14]; [1e-15; 0.5]] _ None
            false default_tol _ _).
  - repeat constructor.
  - vm_compute. reflexivity.
Defined.

Lemma map_length_imap {A B : Type} (f : nat -> list A -> list B)
    (l : list (list A)) :
  (forall i a, length (f i a) = length a) ->
  map (@length B) (imap f l) = map (@length A) l.
Proof.
  revert f. induction l as [|a l IH]; intros f Hf; [reflexivity|].
  cbn [imap map]. rewrite Hf, IH; [reflexivity|]. intros i b. apply Hf.
Qed.

Lemma tol_nonneg_of_check (tol mn M : Q) :
  0 < M -> 0 <= mn -> mn <= tol * M -> 0 <= tol.
Proof.
  intros HM Hmn Hle. destruct (Qlt_le_dec tol 0) as [Hneg|Hpos]; [|exact Hpos].
  exfalso. pose proof (Qmult_lt_compat_r tol 0 M HM Hneg) as H. lra.
Qed.

Lemma clamped_max_pos (a : Q) : 0 < Qmax a 1e-300.
Proof.
  apply Qlt_le_trans with 1e-300; [exact tiny_pos|apply Q.le_max_r].
Qed.

Lemma neg_part_nonneg (a : Q) : 0 <= Qmax (- a) 0.
Proof. apply Q.le_max_r. Qed.

(** X2.  [truncate0] changes no entry by more than noise.  When it returns,
    the result has the shape of [x], every entry is the entry of [x] or zero,
    and it differs from the entry of [x] by at most
    [2 * tol * max(m, 1e-300)], [m] being the maximum of its slice. *)
Theorem truncate0_small_change (x y : array) (axis : option axis2)
    (strict : bool) (tol : Q) :
  rectangular x ->
  fst (truncate0 x axis strict tol) = Ok y ->
  map (@length Q) y = map (@length Q) x
  /\ forall r c row v,
       x !! r = Some row -> row !! c = Some v ->
       exists row' v' s,
         y !! r = Some row' /\ row' !! c = Some v'
         /\ (v' = v \/ v' = 0)
         /\ slices x axis !! along axis r c = Some s /\ In v s
         /\ forall mx, is_max mx s ->
                       Qabs (v' - v) <= 2 * tol * Qmax mx 1e-300.
Proof.
  intros Hrect Hy.
  destruct (truncate0_returns x y axis strict tol Hy) as (Hne & Hchk & ->).
  split.
  { unfold zero_below. apply map_length_imap. intros i a. apply length_imap. }
  intros r c row v Hr Hc.
  destruct (entry_in_slice x axis r c row v Hrect Hr Hc) as (s & Hs & Hin).
  set (t := map _ (slices x axis)).
  exists (imap (fun c v => if Qltb v (nth (along axis r c) t 0) then 0 else v) row),
         (if Qltb v (nth (along axis r c) t 0) then 0 else v), s.
  split.
  { unfold zero_below, array in *. rewrite list_lookup_imap, Hr. reflexivity. }
  split; [rewrite list_lookup_imap, Hc; reflexivity|].
  split; [destruct (Qltb v _); auto|].
  split; [exact Hs|]. split; [exact Hin|].
  intros mx Hmx.
  assert (Hs' : s <> []) by (intros ->; destruct Hin).
  specialize (Hchk s (lookup_In _ _ _ Hs)).
  rewrite (is_max_unique _ _ _ (reduce_list_max s Hs') Hmx) in Hchk.
  destruct (reduce_list_min s Hs') as [_ Hmin]. specialize (Hmin v Hin).
  pose proof (Q.le_max_l (- reduce_list Qmin s) 0) as Hm.
  pose proof (neg_part_nonneg (reduce_list Qmin s)) as Hm0.
  assert (HP : 2 * tol * Qmax mx 1e-300 == 2 * (tol * Qmax mx 1e-300)) by ring.
  rewrite HP. clear HP.
  destruct (Qltb v (nth (along axis r c) t 0)) eqn:Hlt.
  - apply Qltb_lt in Hlt. unfold t in Hlt.
    rewrite (nth_map_lookup _ _ _ s Hs) in Hlt.
    apply Qabs_Qle_condition.
    assert (Hz : 0.0 == 0) by reflexivity.
    destruct strict.
    + rewrite (is_max_unique _ _ _ (reduce_list_max s Hs') Hmx) in Hlt.
      revert Hlt Hchk. generalize (tol * Qmax mx 1e-300). intros P Hlt Hchk.
      split; lra.
    + rewrite Hz in Hlt.
      revert Hchk. generalize (tol * Qmax mx 1e-300). intros P Hchk.
      split; lra.
  - assert (Hvv : v - v == 0) by ring. rewrite Hvv.
    revert Hchk. generalize (tol * Qmax mx 1e-300). intros P Hchk.
    change (Qabs 0) with 0. lra.
Qed.

Lemma truncate0_small_change_witness :
  exists row' v',
    [[1; 0]; [0; 0.5]] !! 0%nat = Some row' /\ row' !! 1%nat = Some v'
    /\ Qabs (v' - -1e-14) <= 2 * default_tol * Qmax 1 1e-300.
Proof.
  destruct (truncate0_small_change [[1; -1e-14]; [1e-15; 0.5]]
              [[1; 0]; [0; 0.5]] None false default_tol
              ltac:(repeat constructor) ltac:(vm_compute; reflexivity))
    as [_ H].
  destruct (H 0%nat 1%nat [1; -1e-14] (-1e-14) eq_refl eq_refl)
    as (row' & v' & s & Hr & Hc & _ & Hs & _ & Hb).
  exists row', v'. split; [exact Hr|]. split; [exact Hc|].
  apply Hb. injection Hs as <-. split.
  - left. reflexivity.
  - intros v [<-|[<-|[<-|[<-|[]]]]]; vm_compute; discriminate.
Defined.

(** The slices of an array and of its truncation have the same lengths. *)
Lemma zero_below_shape (x : array) (axis : option axis2) (t : list Q) :
  map (@length Q) (zero_below x axis t) = map (@length Q) x.
Proof.
  unfold zero_below. apply map_length_imap. intros i a. apply length_imap.
Qed.

Lemma column_length (x : array) (c : nat) : length (column x c) = length x.
Proof. unfold column. apply length_map. Qed.

Lemma slices_lengths (x y : array) (axis : option axis2) :
  map (@length Q) y = map (@length Q) x ->
  map (@length Q) (slices y axis) = map (@length Q) (slices x axis).
Proof.
  intros Hxy.
  assert (Hlen : length y = length x).
  { rewrite <- (length_map (@length Q) y), Hxy. apply length_map. }
  destruct axis as [[|]|]; cbn [slices].
  - assert (Hn : ncols y = ncols x).
    { unfold ncols. destruct x, y; try discriminate; [reflexivity|].
      injection Hxy as H _. exact H. }
    rewrite Hn, !map_map. apply map_ext. intros c.
    rewrite !column_length. exact Hlen.
  - exact Hxy.
  - cbn [map]. rewrite !length_concat, Hxy. reflexivity.
Qed.

Lemma nonempty_along_lengths (x : array) (axis : option axis2) :
  nonempty_along x axis
  <-> length x <> 0%nat
      /\ Forall (fun k => k <> 0%nat) (map (@length Q) (slices x axis)).
Proof.
  unfold nonempty_along. rewrite List.Forall_map. split; intros [H1 H2]; split.
  - destruct x; [congruence|discriminate].
  - eapply List.Forall_impl; [|exact H2]. intros [|] Hs; [congruence|discriminate].
  - intros ->. apply H1. reflexivity.
  - eapply List.Forall_impl; [|exact H2]. intros s Hs ->. apply Hs. reflexivity.
Qed.

Lemma nonempty_along_shape (x y : array) (axis : option axis2) :
  map (@length Q) y = map (@length Q) x ->
  nonempty_along x axis -> nonempty_along y axis.
Proof.
  intros Hxy. rewrite !nonempty_along_lengths.
  rewrite (slices_lengths x y axis Hxy).
  rewrite <- (length_map (@length Q) y), Hxy, length_map. auto.
Qed.

(** [truncate0] with [strict=False] is the identity on an array without
    negative entries, when [tol] is not negative or nothing is compared. *)
Lemma truncate0_id_nonneg (x : array) (axis : option axis2) (tol : Q) :
  nonempty_along x axis ->
  (slices x axis <> [] -> 0 <= tol) ->
  (forall row, In row x -> forall v, In v row -> 0 <= v) ->
  truncate0 x axis false tol = (Ok x, x).
Proof.
  intros Hne Htol Hx.
  rewrite (truncate0_nonempty x axis false tol Hne). cbv zeta.
  assert (Hmins : forall s, In s (slices x axis) ->
                            Qmax (- reduce_list Qmin s) 0.0 == 0).
  { intros s Hs.
    assert (Hs' : s <> []) by (destruct Hne as [_ Hs'];
      rewrite List.Forall_forall in Hs'; exact (Hs' s Hs)).
    destruct (reduce_list_min s Hs') as [Hin _].
    pose proof (slices_nonneg x axis s _ Hx Hs Hin) as Hge.
    rewrite Q.max_r; [reflexivity|].
    assert (Hz : 0.0 == 0) by reflexivity. rewrite Hz. lra. }
  replace (forallb _ _) with true.
  - assert (Hz : zero_below x axis
                   (map (Qmult 2)
                        (map (fun s => Qmax (- reduce_list Qmin s) 0.0)
                             (slices x axis))) = x).
    { unfold zero_below. apply imap_id. intros r row Hrow.
      apply imap_id. intros c v Hv.
      replace (Qltb v _) with false; [reflexivity|].
      symmetry. apply Qltb_ge.
      apply Qle_trans with 0; [|exact (Hx row Hrow v Hv)].
      rewrite map_map.
      destruct (nth_in_or_default (along axis r c)
                  (map (fun s => 2 * Qmax (- reduce_list Qmin s) 0.0)
                       (slices x axis)) 0) as [Hin| ->]; [|apply Qle_refl].
      apply in_map_iff in Hin. destruct Hin as (s & <- & Hs).
      rewrite (Hmins s Hs). lra. }
    rewrite Hz. reflexivity.
  - symmetry. apply forallb_map_true. intros s Hs. apply Qle_bool_iff.
    rewrite (Hmins s Hs).
    assert (Ht : 0 <= tol) by (apply Htol; intros E; rewrite E in Hs; destruct Hs).
    apply Qmult_le_0_compat; [exact Ht|].
    apply Qlt_le_weak, clamped_max_pos.
Qed.

(** X3.  [truncate0] with [strict=False] is idempotent: applied to an array
    it has returned, with the same axis and tolerance, it returns that array
    unchanged. *)
Theorem truncate0_idempotent (x y : array) (axis : option axis2) (tol : Q) :
  rectangular x ->
  fst (truncate0 x axis false tol) = Ok y ->
  truncate0 y axis false tol = (Ok y, y).
Proof.
  intros Hrect Hy.
  pose proof (truncate0_entries_nonneg x y axis false tol Hrect Hy) as Hnn.
  destruct (truncate0_returns x y axis false tol Hy) as (Hne & Hchk & Hyx).
  assert (Hshape : map (@length Q) y = map (@length Q) x)
    by (rewrite Hyx; apply zero_below_shape).
  apply truncate0_id_nonneg; [exact (nonempty_along_shape x y axis Hshape Hne)| |exact Hnn].
  intros Hsl.
  destruct (slices x axis) as [|s sl] eqn:Hs.
  { exfalso. apply Hsl.
    pose proof (slices_lengths x y axis Hshape) as Hl. rewrite Hs in Hl.
    destruct (slices y axis); [reflexivity|discriminate]. }
  specialize (Hchk s (or_introl eq_refl)).
  exact (tol_nonneg_of_check tol _ _ (clamped_max_pos _) (neg_part_nonneg _) Hchk).
Qed.

Lemma truncate0_idempotent_witness :
  truncate0 [[1; 0]; [1e-15; 0.5]] (Some Axis0) false default_tol
  = (Ok [[1; 0]; [1e-15; 0.5]], [[1; 0]; [1e-15; 0.5]]).
Proof.
  refine (truncate0_idempotent [[1; -1e-14]; [1e-15; 0.5]] _ (Some Axis0)
            default_tol _ _).
  - repeat constructor.
  - vm_compute. reflexivity.
Defined.



(** ** More on [check_probs_matrix] *)











(** ** More on the rate matrix *)

Lemma rate_matrix_entry_Z (n : Z) (fmt : spformat) (M : spmatrix) (i j : nat) :
  rate_matrix (PyInt n) fmt = Ok M ->
  (Z.of_nat i <= n)%Z -> (Z.of_nat j <= n)%Z ->
  get M i j == moran_entry n i j.
Proof.
  intros HM Hi Hj.
  destruct (rate_matrix_returns _ _ _ HM) as (z & [= <-] & Hn).
  revert HM. rewrite <- (Z2Nat.id n Hn). intros HM.
  apply (rate_matrix_entry _ fmt); [exact HM|lia|lia].
Qed.

Lemma rate_matrix_shape (n : Z) (fmt : spformat) (M : spmatrix) :
  rate_matrix (PyInt n) fmt = Ok M ->
  (0 <= n)%Z /\ shape M = ((n + 1)%Z, (n + 1)%Z).
Proof.
  intros HM. destruct (rate_matrix_returns _ _ _ HM) as (z & [= <-] & Hn).
  split; [exact Hn|].
  destruct (rate_matrix_ok n fmt Hn) as (M' & HM' & Hs & _). congruence.
Qed.

Lemma rate_nonneg (n i : Z) : (0 <= i <= n)%Z -> 0 <= rate n i.
Proof.
  intros Hi. unfold rate. apply Qle_shift_div_l; [reflexivity|].
  assert (H0 : 0 * 2 == inject_Z 0) by reflexivity. rewrite H0.
  rewrite <- Zle_Qle. nia.
Qed.

Lemma rate_mirror (n i : Z) : rate n (n - i) == rate n i.
Proof.
  unfold rate. replace ((n - i) * (n - (n - i)))%Z with (i * (n - i))%Z by ring.
  reflexivity.
Qed.

(** X7.  The rate matrix is a generator: its off-diagonal entries are not
    negative and its diagonal entries are not positive. *)
Theorem rate_matrix_signs (n : Z) (fmt : spformat) (M : spmatrix) (i j : nat) :
  rate_matrix (PyInt n) fmt = Ok M ->
  (Z.of_nat i <= n)%Z -> (Z.of_nat j <= n)%Z ->
  (i <> j -> 0 <= get M i j) /\ get M i i <= 0.
Proof.
  intros HM Hi Hj.
  pose proof (rate_nonneg n (Z.of_nat i) ltac:(lia)) as Hr.
  split.
  - intros Hij. rewrite (rate_matrix_entry_Z n fmt M i j HM Hi Hj).
    unfold moran_entry.
    destruct (Nat.eqb_spec j (i + 1)); [exact Hr|].
    destruct (Nat.eqb_spec i (j + 1)); [exact Hr|].
    destruct (Nat.eqb_spec j i); [congruence|apply Qle_refl].
  - rewrite (rate_matrix_entry_Z n fmt M i i HM Hi Hi). unfold moran_entry.
    destruct (Nat.eqb_spec i (i + 1)); [lia|]. rewrite Nat.eqb_refl.
    unfold rate in Hr.
    assert (H : inject_Z (Z.of_nat i * (n - Z.of_nat i)) / 2 * 2
                == inject_Z (Z.of_nat i * (n - Z.of_nat i))) by field.
    lra.
Qed.

Lemma rate_matrix_signs_witness :
  exists M, rate_matrix (PyInt 3) CSR = Ok M
            /\ 0 <= get M 1 2 /\ get M 1 1 <= 0.
Proof.
  eexists. split; [vm_compute; reflexivity|].
  destruct (rate_matrix_signs 3 CSR _ 1 2 ltac:(vm_compute; reflexivity)
              ltac:(simpl; lia) ltac:(simpl; lia)) as [H1 H2].
  split; [apply H1; discriminate|exact H2].
Defined.

(** X8.  The rate matrix is unchanged when the order of the states is
    reversed: its entry [(n - i, n - j)] equals its entry [(i, j)]. *)
Theorem rate_matrix_centrosymmetric (n : Z) (fmt : spformat) (M : spmatrix)
    (i j : nat) :
  rate_matrix (PyInt n) fmt = Ok M ->
  (Z.of_nat i <= n)%Z -> (Z.of_nat j <= n)%Z ->
  get M (Z.to_nat n - i) (Z.to_nat n - j) == get M i j.
Proof.
  intros HM Hi Hj.
  rewrite (rate_matrix_entry_Z n fmt M i j HM Hi Hj).
  rewrite (rate_matrix_entry_Z n fmt M _ _ HM) by lia.
  unfold moran_entry.
  replace (Z.of_nat (Z.to_nat n - i)) with (n - Z.of_nat i)%Z by lia.
  replace ((n - Z.of_nat i) * (n - (n - Z.of_nat i)))%Z
    with (Z.of_nat i * (n - Z.of_nat i))%Z by ring.
  destruct (Nat.eqb_spec (Z.to_nat n - j) (Z.to_nat n - i + 1)),
    (Nat.eqb_spec (Z.to_nat n - i) (Z.to_nat n - j + 1)),
    (Nat.eqb_spec (Z.to_nat n - j) (Z.to_nat n - i)),
    (Nat.eqb_spec j (i + 1)), (Nat.eqb_spec i (j + 1)), (Nat.eqb_spec j i);
    try lia; try reflexivity; apply rate_mirror.
Qed.

Lemma rate_matrix_centrosymmetric_witness :
  exists M, rate_matrix (PyInt 4) CSR = Ok M /\ get M 3 4 == get M 1 0.
Proof.
  eexists. split; [vm_compute; reflexivity|].
  exact (rate_matrix_centrosymmetric 4 CSR _ 1 0 ltac:(vm_compute; reflexivity)
           ltac:(simpl; lia) ltac:(simpl; lia)).
Defined.

Lemma sum_indicator_scaled (k : nat) (a : Q) (f : nat -> Q) (L : nat) :
  sum (map (fun j => (if (j =? k)%nat then a else 0) * f j) (seq 0 L))
  == if (k <? L)%nat then a * f k else 0.
Proof.
  rewrite (sum_map_ext _ (fun j => if (j =? k)%nat then a * f k else 0)).
  - rewrite sum_indicator. cbn [Nat.leb andb Nat.add]. reflexivity.
  - intros j _. destruct (Nat.eqb_spec j k) as [->|]; [reflexivity|ring].
Qed.

Lemma matvec_row (M : spmatrix) (v : list Q) (i : nat) :
  (Z.of_nat i < fst (shape M))%Z ->
  nth i (matvec M v) 0
  = sum (map (fun c => get M i c * nth c v 0)
             (seq 0 (Z.to_nat (snd (shape M))))).
Proof.
  intros Hi. unfold matvec.
  set (F := fun r => sum (map (fun c => get M r c * nth c v 0)
                              (seq 0 (Z.to_nat (snd (shape M)))))).
  rewrite (nth_indep _ 0 (F 0%nat)) by (rewrite length_map, length_seq; lia).
  rewrite (map_nth F), seq_nth by lia. reflexivity.
Qed.

(** The rate matrix acts on a vector as the second difference, scaled by
    the rate of the row. *)
Lemma matvec_second_difference (n : Z) (fmt : spformat) (M : spmatrix)
    (v : list Q) (i : nat) :
  rate_matrix (PyInt n) fmt = Ok M ->
  (Z.of_nat i <= n)%Z ->
  nth i (matvec M v) 0
  == rate n (Z.of_nat i)
     * (nth (i + 1) v 0 - 2 * nth i v 0 + nth (i - 1) v 0).
Proof.
  intros HM Hi. destruct (rate_matrix_shape n fmt M HM) as [Hn Hshape].
  rewrite matvec_row by (rewrite Hshape; cbn [fst]; lia).
  rewrite Hshape. cbn [snd].
  set (r := rate n (Z.of_nat i)).
  set (r' := if (1 <=? i)%nat then r else 0).
  rewrite (sum_map_ext _
             (fun j => (if (j =? i + 1)%nat then r else 0) * nth j v 0
                       + ((if (j =? i - 1)%nat then r' else 0) * nth j v 0
                          + (if (j =? i)%nat then -2 * r else 0) * nth j v 0))).
  - rewrite sum_map_plus, sum_map_plus, !sum_indicator_scaled.
    assert (H0 : i = 0%nat -> r == 0) by (intros ->; apply rate_0).
    assert (HN : Z.of_nat i = n -> r == 0)
      by (intros E; unfold r; rewrite E; apply rate_n).
    unfold r'.
    destruct (Nat.ltb_spec (i + 1) (Z.to_nat (n + 1))),
      (Nat.ltb_spec (i - 1) (Z.to_nat (n + 1))),
      (Nat.ltb_spec i (Z.to_nat (n + 1))), (Nat.leb_spec 1 i); try lia.
    + ring.
    + rewrite H0 by lia. ring.
    + rewrite HN by lia. ring.
    + rewrite HN by lia. ring.
  - intros j Hj. apply in_seq in Hj.
    rewrite (rate_matrix_entry_Z n fmt M i j HM) by lia.
    unfold moran_entry. fold r. unfold r'.
    destruct (Nat.eqb_spec j (i + 1)), (Nat.eqb_spec i (j + 1)),
      (Nat.eqb_spec j i), (Nat.eqb_spec j (i - 1)), (Nat.leb_spec 1 i);
      try lia; try ring; unfold r, rate; field.
Qed.

(** X9.  The product of the rate matrix with any vector [v] has, in every
    row [i], the entry [rate(i) * (v[i+1] - 2 v[i] + v[i-1])], with
    [rate(i) = i (n - i) / 2]. *)
Theorem rate_matrix_second_difference (n : Z) (fmt : spformat) (M : spmatrix)
    (v : list Q) (i : nat) :
  rate_matrix (PyInt n) fmt = Ok M ->
  (Z.of_nat i <= n)%Z ->
  length (matvec M v) = Z.to_nat (n + 1)
  /\ nth i (matvec M v) 0
     == inject_Z (Z.of_nat i * (n - Z.of_nat i)) / 2
        * (nth (i + 1) v 0 - 2 * nth i v 0 + nth (i - 1) v 0).
Proof.
  intros HM Hi. split; [|apply (matvec_second_difference n fmt M v i HM Hi)].
  destruct (rate_matrix_shape n fmt M HM) as [_ Hshape].
  unfold matvec. rewrite length_map, length_seq, Hshape. reflexivity.
Qed.

Lemma rate_matrix_second_difference_witness :
  exists M, rate_matrix (PyInt 3) CSR = Ok M
            /\ nth 1 (matvec M [5; 1; 4; 2]) 0 == 1 * (4 - 2 * 1 + 5).
Proof.
  eexists. split; [vm_compute; reflexivity|].
  rewrite (proj2 (rate_matrix_second_difference 3 CSR _ [5; 1; 4; 2] 1
                    ltac:(vm_compute; reflexivity) ltac:(simpl; lia))).
  reflexivity.
Defined.

Lemma nth_map_seq (f : nat -> Q) (L i : nat) :
  (i < L)%nat -> nth i (map f (seq 0 L)) 0 = f i.
Proof.
  intros Hi. rewrite (nth_indep _ 0 (f 0%nat)) by (rewrite length_map, length_seq; lia).
  rewrite (map_nth f), seq_nth by lia. reflexivity.
Qed.

(** X10.  Three eigenvectors of the rate matrix of [n >= 0] lineages: the
    constant vectors and the vector [(0, 1, ..., n)] are sent to zero, and
    the vector of the [j (n - j)] is sent to its opposite (eigenvalue
    [-1]). *)
Theorem rate_matrix_eigenvectors (n : Z) (fmt : spformat) (M : spmatrix)
    (c : Q) (i : nat) :
  rate_matrix (PyInt n) fmt = Ok M ->
  (Z.of_nat i <= n)%Z ->
  nth i (matvec M (repeat c (Z.to_nat (n + 1)))) 0 == 0
  /\ nth i (matvec M (map (fun j => inject_Z (Z.of_nat j))
                          (seq 0 (Z.to_nat (n + 1))))) 0 == 0
  /\ nth i (matvec M (map (fun j => inject_Z (Z.of_nat j * (n - Z.of_nat j)))
                          (seq 0 (Z.to_nat (n + 1))))) 0
     == - inject_Z (Z.of_nat i * (n - Z.of_nat i)).
Proof.
  intros HM Hi. destruct (rate_matrix_shape n fmt M HM) as [Hn _].
  rewrite !(matvec_second_difference n fmt M _ i HM Hi).
  destruct (Z.eq_dec (Z.of_nat i) n) as [E|E].
  { assert (Hr : rate n (Z.of_nat i) == 0) by (rewrite E; apply rate_n).
    rewrite Hr. rewrite E, Z.sub_diag, Z.mul_0_r. change (inject_Z 0) with 0.
    split; [ring|]. split; [ring|]. ring. }
  destruct i as [|i].
  { assert (Hr : rate n (Z.of_nat 0) == 0) by apply rate_0.
    rewrite Hr. split; [ring|]. split; [ring|].
    change (Z.of_nat 0) with 0%Z. rewrite Z.mul_0_l.
    change (inject_Z 0) with 0. ring. }
  split; [|split].
  - rewrite !nth_repeat_lt by lia. ring.
  - rewrite !nth_map_seq by lia. rewrite !Nat2Z.inj_add, Nat2Z.inj_sub by lia.
    unfold Zminus. rewrite !inject_Z_plus, !inject_Z_opp. ring.
  - rewrite !nth_map_seq by lia. rewrite !Nat2Z.inj_add, Nat2Z.inj_sub by lia.
    unfold rate, Zminus.
    rewrite !inject_Z_mult, !inject_Z_plus, !inject_Z_opp, !inject_Z_plus.
    rewrite !inject_Z_opp. field.
Qed.

Lemma rate_matrix_eigenvectors_witness :
  exists M, rate_matrix (PyInt 3) CSR = Ok M
            /\ nth 1 (matvec M [0; 2; 2; 0]) 0 == -2.
Proof.
  eexists. split; [vm_compute; reflexivity|].
  pose proof (proj2 (proj2 (rate_matrix_eigenvectors 3 CSR _ 0 1
                              ltac:(vm_compute; reflexivity)
                              ltac:(simpl; lia)))) as H.
  cbn [Z.to_nat Z.add Pos.to_nat Pos.iter_op Nat.add seq map] in H.
  rewrite <- H. reflexivity.
Defined.

(** ** More on the caches *)

(** X11.  A call that raises is not cached: when the decorated object raises
    on arguments that are not in the cache, each of any number of repeated
    calls runs the object again and raises, and the cache is left as it
    was. *)
Theorem memoize_retries_failures {A KW V K : Type} `{Countable K}
    (key_of : A -> K) (obj : A -> KW -> result V) (a : A) (kw : KW) (e : exn)
    (s : memo_state A KW V K) (m : nat) :
  cache s !! key_of a = None ->
  obj a kw = Raise e ->
  run_calls key_of obj (repeat (a, kw) m) s
  = (repeat (Raise e) m, MemoState (cache s) (calls s ++ repeat (a, kw) m)).
Proof.
  intros Hc He. revert s Hc. induction m as [|m IH]; intros s Hc.
  - cbn [repeat run_calls]. rewrite app_nil_r. destruct s; reflexivity.
  - cbn [repeat run_calls]. rewrite (memoizer_raise key_of obj a kw s e Hc He).
    rewrite IH by exact Hc. cbn [cache calls].
    rewrite <- app_assoc. reflexivity.
Qed.

Lemma memoize_retries_failures_witness :
  run_calls rm_key rate_matrix_apply
            (repeat (Args1 (PyInt (-1)), None) 3) memoize
  = (repeat (Raise ValueError) 3,
     MemoState ∅ (repeat (Args1 (PyInt (-1)), None) 3)).
Proof.
  exact (memoize_retries_failures rm_key rate_matrix_apply
           (Args1 (PyInt (-1))) None ValueError memoize 3
           ltac:(reflexivity) ltac:(reflexivity)).
Defined.

Lemma num_key_float_int (q : Q) (n : Z) :
  q == inject_Z n -> num_key (PyFloat q) = num_key (PyInt n).
Proof.
  intros Hq. unfold num_key. cbn [num_val].
  rewrite (Qred_complete _ _ Hq). reflexivity.
Qed.

(** X12.  A dict identifies keys that compare equal, so the cache does not
    tell the float [2.0] from the int [2]: once [rate_matrix(n)] has
    returned for an int [n], a call with the float of the same value returns
    the cached matrix, after any calls in between, without running the
    body. *)
Theorem rate_matrix_float_hits_int (n : Z) (q : Q) (s0 : rm_state)
    (M : spmatrix) (cs : list (rm_args * rm_kwargs)) (kw : rm_kwargs) :
  q == inject_Z n ->
  fst (rate_matrix_memo (Args1 (PyInt n)) None s0) = Ok M ->
  let s := snd (run_calls rm_key rate_matrix_apply cs
                  (snd (rate_matrix_memo (Args1 (PyInt n)) None s0))) in
  rate_matrix_memo (Args1 (PyFloat q)) kw s = (Ok M, s).
Proof.
  intros Hq HM s. unfold rate_matrix_memo. apply memoizer_hit.
  cbn [rm_key]. rewrite (num_key_float_int q n Hq).
  change (num_key (PyInt n), None) with (rm_key (Args1 (PyInt n))).
  unfold s. apply run_calls_keeps, memoizer_stores, HM.
Qed.

Lemma rate_matrix_float_hits_int_witness :
  exists M,
    fst (rate_matrix_memo (Args1 (PyInt 2)) None memoize) = Ok M
    /\ fst (rate_matrix_memo (Args1 (PyFloat 2.0)) None
              (snd (rate_matrix_memo (Args1 (PyInt 2)) None memoize))) = Ok M.
Proof.
  eexists. split; [vm_compute; reflexivity|].
  pose proof (rate_matrix_float_hits_int 2 2.0 memoize _ [] None
                ltac:(reflexivity) ltac:(vm_compute; reflexivity)) as H.
  cbv zeta in H. cbn [run_calls snd] in H. rewrite H. reflexivity.
Defined.

Lemma run_method_calls_keeps {A KW V KA KK : Type} `{Countable KA}
    `{Countable KK} (args_key : A -> KA) (kw_key : KW -> KK)
    (cs : list (memoize_instance A KW V * nat * A * KW))
    (s : inst_state A KW V KA KK) (o : nat) (c : gmap (nat * KA * KK) V)
    (key : nat * KA * KK) (v : V) :
  caches s !! o = Some c -> c !! key = Some v ->
  exists c', caches (snd (run_method_calls args_key kw_key cs s)) !! o = Some c'
             /\ c' !! key = Some v.
Proof.
  revert s c. induction cs as [|[[[self o1] a1] kw1] cs IH]; intros s c Ho Hk.
  - exists c. auto.
  - cbn [run_method_calls].
    destruct (call_keeps args_key kw_key self o1 a1 kw1 s o c key v Ho Hk)
      as (c1 & Ho1 & Hk1).
    destruct (call args_key kw_key self o1 a1 kw1 s) as [r s1].
    cbn [snd] in Ho1. destruct (IH s1 c1 Ho1 Hk1) as (c2 & Ho2 & Hk2).
    destruct (run_method_calls args_key kw_key cs s1) as [rs s2].
    exists c2. auto.
Qed.

Lemma call_stores {A KW V KA KK : Type} `{Countable KA} `{Countable KK}
    (args_key : A -> KA) (kw_key : KW -> KK) (self : memoize_instance A KW V)
    (o : nat) (a : A) (kw : KW) (s : inst_state A KW V KA KK) (v : V) :
  fst (call args_key kw_key self o a kw s) = Ok v ->
  exists c, caches (snd (call args_key kw_key self o a kw s)) !! o = Some c
            /\ c !! (func_id self, args_key a, kw_key kw) = Some v.
Proof.
  unfold call.
  destruct ((match caches s !! o with Some c => c | None => ∅ end)
              !! (func_id self, args_key a, kw_key kw)) as [w|] eqn:Hc.
  - cbn [fst snd caches]. intros [= ->]. eexists.
    split; [apply lookup_insert_eq|exact Hc].
  - destruct (func self o a kw) as [w|e]; cbn [fst snd caches]; [|discriminate].
    intros [= ->]. eexists. split; [apply lookup_insert_eq|].
    apply lookup_insert_eq.
Qed.

Lemma call_hit {A KW V KA KK : Type} `{Countable KA} `{Countable KK}
    (args_key : A -> KA) (kw_key : KW -> KK) (self : memoize_instance A KW V)
    (o : nat) (a : A) (kw : KW) (s : inst_state A KW V KA KK)
    (c : gmap (nat * KA * KK) V) (v : V) :
  caches s !! o = Some c ->
  c !! (func_id self, args_key a, kw_key kw) = Some v ->
  call args_key kw_key self o a kw s = (Ok v, s).
Proof.
  intros Ho Hk. unfold call. rewrite Ho, Hk. rewrite (insert_id _ _ _ Ho).
  destruct s; reflexivity.
Qed.

(** X13.  The instance cache is keyed on the method, the positional
    arguments after [self] and the set of the keyword items: once a call on
    an instance has returned [v], every later call of the same method on
    that instance with equal positional arguments and the same keyword
    items, in any order, returns [v] and runs nothing. *)
Theorem memoize_instance_hit {A KW V KA KK : Type} `{Countable KA}
    `{Countable KK} (args_key : A -> KA) (kw_key : KW -> KK)
    (self self' : memoize_instance A KW V) (o : nat) (a a' : A) (kw kw' : KW)
    (s : inst_state A KW V KA KK) (v : V)
    (cs : list (memoize_instance A KW V * nat * A * KW)) :
  fst (call args_key kw_key self o a kw s) = Ok v ->
  func_id self' = func_id self ->
  args_key a' = args_key a ->
  kw_key kw' = kw_key kw ->
  let s' := snd (run_method_calls args_key kw_key cs
                   (snd (call args_key kw_key self o a kw s))) in
  call args_key kw_key self' o a' kw' s' = (Ok v, s').
Proof.
  intros Hv Hf Ha Hkw s'.
  destruct (call_stores args_key kw_key self o a kw s v Hv) as (c & Ho & Hk).
  destruct (run_method_calls_keeps args_key kw_key cs _ o c _ v Ho Hk)
    as (c' & Ho' & Hk').
  apply (call_hit args_key kw_key self' o a' kw' s' c' v Ho').
  rewrite Hf, Ha, Hkw. exact Hk'.
Qed.

Lemma memoize_instance_hit_witness :
  let self := {| func_id := 7; func := fun (o : nat) (a : Z) (kw : list (string * Z)) =>
                                         Ok (a + Z.of_nat (length kw))%Z |} in
  let s := snd (call (fun a : Z => a) frozenset_items self 1 5%Z
                     [("x"%string, 1%Z); ("y"%string, 2%Z)] no_instances) in
  call (fun a : Z => a) frozenset_items self 1 5%Z
       [("y"%string, 2%Z); ("x"%string, 1%Z)] s
  = (Ok 7%Z, s).
Proof.
  intros self s.
  refine (memoize_instance_hit (fun a : Z => a) frozenset_items self self 1%nat
            5%Z 5%Z [("x"%string, 1%Z); ("y"%string, 2%Z)]
            [("y"%string, 2%Z); ("x"%string, 1%Z)] no_instances 7%Z [] _ _ _ _).
  - reflexivity.
  - reflexivity.
  - reflexivity.
  - unfold frozenset_items. cbn [list_to_set foldr].
    apply set_eq. intros x. rewrite !elem_of_union, !elem_of_singleton.
    rewrite elem_of_empty. tauto.
Defined.

(** X14.  The instance cache is per instance and per method: a call on one
    instance leaves the cache of every other instance as it was; and after a
    call of one method on an instance, a call of another method on it, or of
    the same method on another instance, with the same arguments runs its
    own function. *)
Theorem memoize_instance_isolated {A KW V KA KK : Type} `{Countable KA}
    `{Countable KK} (args_key : A -> KA) (kw_key : KW -> KK)
    (self self2 : memoize_instance A KW V) (o o2 : nat) (a : A) (kw : KW)
    (s : inst_state A KW V KA KK) :
  func_id self2 <> func_id self ->
  o2 <> o ->
  caches (snd (call args_key kw_key self o a kw s)) !! o2 = caches s !! o2
  /\ fst (call args_key kw_key self2 o a kw
            (snd (call args_key kw_key self o a kw no_instances)))
     = func self2 o a kw
  /\ fst (call args_key kw_key self o2 a kw
            (snd (call args_key kw_key self o a kw no_instances)))
     = func self o2 a kw.
Proof.
  intros Hf Ho. split; [|split].
  - unfold call.
    destruct ((match caches s !! o with Some c => c | None => ∅ end)
                !! (func_id self, args_key a, kw_key kw)) as [w|];
      [|destruct (func self o a kw) as [w|e]];
      cbn [snd caches]; apply lookup_insert_ne; congruence.
  - unfold call at 2. cbn [caches no_instances]. rewrite !lookup_empty.
    destruct (func self o a kw) as [w|e]; cbn [snd]; unfold call;
      cbn [caches]; rewrite lookup_insert_eq.
    + rewrite lookup_insert_ne by congruence. rewrite lookup_empty.
      destruct (func self2 o a kw); reflexivity.
    + rewrite lookup_empty. destruct (func self2 o a kw); reflexivity.
  - unfold call at 2. cbn [caches no_instances]. rewrite !lookup_empty.
    destruct (func self o a kw) as [w|e]; cbn [snd]; unfold call;
      cbn [caches]; rewrite lookup_insert_ne by congruence;
      rewrite !lookup_empty; destruct (func self o2 a kw); reflexivity.
Qed.

Lemma memoize_instance_isolated_witness :
  let f := {| func_id := 1; func := fun (o : nat) (a : Z) (_ : unit) => Ok (a + 1)%Z |} in
  let g := {| func_id := 2; func := fun (o : nat) (a : Z) (_ : unit) => Ok (a * 2)%Z |} in
  fst (call (fun a : Z => a) (fun kw : unit => kw) g 0 5%Z tt
         (snd (call (fun a : Z => a) (fun kw : unit => kw) f 0 5%Z tt
                    no_instances)))
  = Ok 10%Z.
Proof.
  intros f g.
  exact (proj1 (proj2 (memoize_instance_isolated (fun a : Z => a)
                         (fun kw : unit => kw) f g 0%nat 1%nat 5%Z tt
                         no_instances ltac:(discriminate) ltac:(discriminate)))).
Defined.

(** ** [cached_property] *)

Section CachedPropertyFacts.
Context {V : Type}.

Lemma getattr_stored (attr : string) (self : cached_property V) (o : nat)
    (s : cp_state V) (v : V) :
  instance_dict s o !! attr = Some v -> getattr attr self o s = (Ok v, s).
Proof. intros Hd. unfold getattr. rewrite Hd. reflexivity. Qed.

Lemma getattr_times_stored (m : nat) (attr : string) (self : cached_property V)
    (o : nat) (s : cp_state V) (v : V) :
  instance_dict s o !! attr = Some v ->
  getattr_times m attr self o s = (repeat (Ok v) m, s).
Proof.
  intros Hd. induction m as [|m IH]; [reflexivity|].
  cbn [getattr_times repeat]. rewrite (getattr_stored attr self o s v Hd), IH.
  reflexivity.
Qed.

Lemma instance_dict_insert (s : cp_state V) (o : nat) (d : gmap string V)
    (l : list (string * nat)) :
  instance_dict (CpState (<[o := d]> (dicts s)) l) o = d.
Proof. unfold instance_dict. cbn [dicts]. rewrite lookup_insert_eq. reflexivity. Qed.

Lemma instance_dict_insert_ne (s : cp_state V) (o o' : nat)
    (d : gmap string V) (l : list (string * nat)) :
  o <> o' -> instance_dict (CpState (<[o := d]> (dicts s)) l) o' = instance_dict s o'.
Proof.
  intros Hne. unfold instance_dict. cbn [dicts].
  rewrite lookup_insert_ne by exact Hne. reflexivity.
Qed.

End CachedPropertyFacts.

(** X15.  A [cached_property] bound under the name of its function is
    computed once per instance: of any number of evaluations of [obj.attr],
    the first calls the function and stores the value in the instance, all
    return that value, and the function is not called again; the instance
    dicts of other instances are not touched. *)
Theorem cached_property_computed_once {V : Type} (self : cached_property V)
    (o : nat) (s : cp_state V) (v : V) (m : nat) :
  instance_dict s o !! cp_name self = None ->
  cp_func self o = Ok v ->
  let r := getattr_times (S m) (cp_name self) self o s in
  fst r = repeat (Ok v) (S m)
  /\ cp_calls (snd r) = cp_calls s ++ [(cp_name self, o)]
  /\ instance_dict (snd r) o = <[cp_name self := v]> (instance_dict s o)
  /\ forall o', o' <> o -> instance_dict (snd r) o' = instance_dict s o'.
Proof.
  intros Hd Hf r.
  assert (Hr : r = (repeat (Ok v) (S m),
                    CpState (<[o := <[cp_name self := v]> (instance_dict s o)]>
                               (dicts s))
                            (cp_calls s ++ [(cp_name self, o)]))).
  { subst r. cbn [getattr_times].
    unfold getattr at 1. rewrite Hd. unfold cp_get. rewrite Hf.
    rewrite (getattr_times_stored m _ self o _ v)
      by (rewrite instance_dict_insert; apply lookup_insert_eq).
    reflexivity. }
  rewrite Hr. cbn [fst snd cp_calls]. split; [reflexivity|]. split; [reflexivity|].
  split; [apply instance_dict_insert|].
  intros o' Ho'. apply instance_dict_insert_ne. congruence.
Qed.

Lemma cached_property_computed_once_witness :
  let p := {| cp_name := "size"; cp_func := fun o => Ok (Z.of_nat o + 1)%Z |} in
  let r := getattr_times 3 "size" p 4 (cp_fresh Z) in
  fst r = [Ok 5%Z; Ok 5%Z; Ok 5%Z] /\ cp_calls (snd r) = [("size"%string, 4%nat)].
Proof.
  intros p r.
  destruct (cached_property_computed_once p 4 (cp_fresh Z) 5%Z 2
              ltac:(vm_compute; reflexivity) ltac:(reflexivity))
    as (H1 & H2 & _).
  split; [exact H1|exact H2].
Defined.

(** X16.  Deleting the attribute resets a [cached_property]: after
    [del obj.attr] the next evaluation of [obj.attr] calls the function
    again; and deleting an attribute that has not been computed raises
    [AttributeError]. *)
Theorem cached_property_delete_resets {V : Type} (self : cached_property V)
    (o : nat) (s : cp_state V) (v : V) :
  instance_dict s o !! cp_name self = None ->
  cp_func self o = Ok v ->
  delattr (cp_name self) o s = None
  /\ exists s1 s2,
       getattr (cp_name self) self o s = (Ok v, s1)
       /\ delattr (cp_name self) o s1 = Some s2
       /\ instance_dict s2 o !! cp_name self = None
       /\ fst (getattr (cp_name self) self o s2) = Ok v
       /\ cp_calls (snd (getattr (cp_name self) self o s2))
          = cp_calls s ++ [(cp_name self, o); (cp_name self, o)].
Proof.
  intros Hd Hf. split; [unfold delattr; rewrite Hd; reflexivity|].
  set (s1 := CpState (<[o := <[cp_name self := v]> (instance_dict s o)]>
                        (dicts s))
                     (cp_calls s ++ [(cp_name self, o)])).
  set (s2 := CpState (<[o := delete (cp_name self) (instance_dict s1 o)]>
                        (dicts s1))
                     (cp_calls s1)).
  assert (Hd1 : instance_dict s1 o = <[cp_name self := v]> (instance_dict s o))
    by apply instance_dict_insert.
  assert (Hn : instance_dict s2 o !! cp_name self = None).
  { unfold s2. rewrite instance_dict_insert. apply lookup_delete_eq. }
  exists s1, s2. split.
  { unfold getattr. rewrite Hd. unfold cp_get. rewrite Hf. reflexivity. }
  split.
  { unfold delattr.
    destruct (instance_dict s1 o !! cp_name self) eqn:E; [reflexivity|].
    rewrite Hd1, lookup_insert_eq in E. discriminate. }
  split; [exact Hn|].
  unfold getattr. rewrite Hn. unfold cp_get. rewrite Hf. cbn [fst snd cp_calls].
  split; [reflexivity|]. unfold s2, s1. cbn [cp_calls].
  rewrite <- app_assoc. reflexivity.
Qed.

Lemma cached_property_delete_resets_witness :
  let p := {| cp_name := "size"; cp_func := fun o => Ok (Z.of_nat o + 1)%Z |} in
  delattr "size" 4 (cp_fresh Z) = None.
Proof.
  intros p.
  exact (proj1 (cached_property_delete_resets p 4 (cp_fresh Z) 5%Z
                  ltac:(vm_compute; reflexivity) ltac:(reflexivity))).
Defined.

(** X17.  A [cached_property] stores its value under the name of the
    function: bound in the class under another name, it calls the function
    at every evaluation of that attribute. *)
Theorem cached_property_other_name {V : Type} (attr : string)
    (self : cached_property V) (o : nat) (s : cp_state V) (v : V) (m : nat) :
  attr <> cp_name self ->
  instance_dict s o !! attr = None ->
  cp_func self o = Ok v ->
  let r := getattr_times m attr self o s in
  fst r = repeat (Ok v) m
  /\ cp_calls (snd r) = cp_calls s ++ repeat (cp_name self, o) m.
Proof.
  intros Hne Hd Hf. cbv zeta. revert s Hd.
  induction m as [|m IH]; intros s Hd.
  - cbn. rewrite app_nil_r. auto.
  - cbn [getattr_times]. unfold getattr at 1 2. rewrite Hd.
    unfold cp_get. rewrite Hf.
    specialize (IH (CpState
                      (<[o := <[cp_name self := v]> (instance_dict s o)]> (dicts s))
                      (cp_calls s ++ [(cp_name self, o)]))).
    destruct (getattr_times m attr self o _) as [rs s2].
    destruct IH as [IH1 IH2].
    { rewrite instance_dict_insert. rewrite lookup_insert_ne by congruence.
      exact Hd. }
    cbn [fst snd] in *. subst rs. split; [reflexivity|].
    rewrite IH2. cbn [cp_calls repeat]. rewrite <- app_assoc. reflexivity.
Qed.

Lemma cached_property_other_name_witness :
  let p := {| cp_name := "compute"; cp_func := fun o => Ok (Z.of_nat o + 1)%Z |} in
  cp_calls (snd (getattr_times 2 "size" p 4 (cp_fresh Z)))
  = [("compute"%string, 4%nat); ("compute"%string, 4%nat)].
Proof.
  intros p.
  exact (proj2 (cached_property_other_name "size" p 4 (cp_fresh Z) 5%Z 2
                  ltac:(discriminate) ltac:(vm_compute; reflexivity)
                  ltac:(reflexivity))).
Defined.

(** ** [grouper] *)

Section GrouperFacts.
Context {A : Type}.
Variable fillvalue : A.

(** A round over live slots when the iterator has enough items. *)
Lemma zip_round_full (k : nat) (rest : list A) (na : nat) :
  (k <= length rest)%nat ->
  zip_round fillvalue (repeat Live k) rest na
  = Some (firstn k rest, repeat Live k, skipn k rest, na).
Proof.
  revert rest. induction k as [|k IH]; intros rest Hk; [reflexivity|].
  destruct rest as [|v rest]; [cbn in Hk; lia|].
  cbn [repeat zip_round]. rewrite IH by (cbn in Hk; lia). reflexivity.
Qed.

(** A round that finds the iterator exhausted with [na] arguments active
    among at least [na] live slots ends the iteration. *)
Lemma zip_round_stop (k : nat) (tail : list zip_slot) (na : nat) :
  (1 <= na <= k)%nat ->
  zip_round fillvalue (repeat Live k ++ tail) [] na = None.
Proof.
  revert na. induction k as [|k IH]; intros na Hna; [lia|].
  cbn [repeat app zip_round].
  destruct (Nat.eqb_spec (na - 1) 0) as [|Hne]; [reflexivity|].
  rewrite IH by lia. reflexivity.
Qed.

(** A round over fewer live slots than active arguments, on an exhausted
    iterator, fills them all. *)
Lemma zip_round_fill (k na : nat) :
  (k < na)%nat ->
  zip_round fillvalue (repeat Live k) [] na
  = Some (repeat fillvalue k, repeat Spent k, [], (na - k)%nat).
Proof.
  revert na. induction k as [|k IH]; intros na Hna.
  - cbn. rewrite Nat.sub_0_r. reflexivity.
  - cbn [repeat zip_round].
    destruct (Nat.eqb_spec (na - 1) 0) as [|Hne]; [lia|].
    rewrite IH by lia.
    replace (na - 1 - k)%nat with (na - S k)%nat by lia. reflexivity.
Qed.

(** A round that runs out of items after [r] of them, [0 < r < k]. *)
Lemma zip_round_partial (k : nat) (rest : list A) :
  (0 < length rest < k)%nat ->
  zip_round fillvalue (repeat Live k) rest k
  = Some (rest ++ repeat fillvalue (k - length rest),
          repeat Live (length rest) ++ repeat Spent (k - length rest),
          [], length rest).
Proof.
  intros Hr.
  assert (Hgen : forall (rest : list A) (j na : nat),
             (j < na)%nat ->
             zip_round fillvalue (repeat Live (length rest + j)) rest na
             = Some (rest ++ repeat fillvalue j,
                     repeat Live (length rest) ++ repeat Spent j, [],
                     (na - j)%nat)).
  { clear. intros rest. induction rest as [|v rest IH]; intros j na Hj.
    - cbn [length Nat.add app repeat]. apply zip_round_fill, Hj.
    - cbn [length Nat.add repeat zip_round app]. rewrite IH by exact Hj.
      reflexivity. }
  specialize (Hgen rest (k - length rest)%nat k ltac:(lia)).
  replace (length rest + (k - length rest))%nat with k in Hgen by lia.
  rewrite Hgen.
  replace (k - (k - length rest))%nat with (length rest) by lia. reflexivity.
Qed.

Lemma zip_loop_spec (n : nat) :
  (1 <= n)%nat ->
  forall (fuel : nat) (rest : list A),
    (length rest + 2 <= fuel)%nat ->
    let gs := zip_loop fuel fillvalue (repeat Live n) rest n in
    Forall (fun g => length g = n) gs
    /\ exists k, (k < n)%nat
                 /\ concat gs = rest ++ repeat fillvalue k
                 /\ (length rest + k = n * length gs)%nat.
Proof.
  intros Hn fuel. induction fuel as [|fuel IH]; intros rest Hfuel; [lia|].
  cbn zeta. cbn [zip_loop].
  destruct (Nat.le_gt_cases n (length rest)) as [Hfull|Hshort].
  - rewrite zip_round_full by exact Hfull.
    assert (Hlen : length (skipn n rest) = (length rest - n)%nat)
      by apply length_skipn.
    destruct (IH (skipn n rest) ltac:(lia)) as (Hall & k & Hk & Hcat & Hcount).
    split.
    + constructor; [|exact Hall]. rewrite length_firstn. lia.
    + exists k. split; [exact Hk|]. cbn [concat length]. rewrite Hcat.
      split; [rewrite app_assoc, firstn_skipn; reflexivity|]. lia.
  - destruct rest as [|v rest'].
    + replace (repeat Live n) with (repeat Live n ++ []) by apply app_nil_r.
      rewrite zip_round_stop by lia.
      split; [constructor|]. exists 0%nat. cbn. split; [lia|]. split; [reflexivity|lia].
    + set (rest := v :: rest') in *.
      rewrite zip_round_partial by (subst rest; cbn [length] in *; lia).
      destruct fuel as [|fuel]; [subst rest; cbn [length] in *; lia|].
      cbn [zip_loop]. rewrite zip_round_stop by (subst rest; cbn [length]; lia).
      split.
      * constructor; [|constructor]. rewrite length_app, repeat_length. lia.
      * exists (n - length rest)%nat. split; [subst rest; cbn [length]; lia|].
        cbn [concat length]. rewrite app_nil_r. split; [reflexivity|lia].
Qed.

End GrouperFacts.

Lemma zip_loop_fuel {A : Type} (fillvalue : A) (n : nat) :
  (1 <= n)%nat ->
  forall (fuel fuel' : nat) (rest : list A),
    (length rest + 2 <= fuel)%nat -> (length rest + 2 <= fuel')%nat ->
    zip_loop fuel fillvalue (repeat Live n) rest n
    = zip_loop fuel' fillvalue (repeat Live n) rest n.
Proof.
  intros Hn fuel. induction fuel as [|fuel IH]; intros fuel' rest H1 H2; [lia|].
  destruct fuel' as [|fuel']; [lia|]. cbn [zip_loop].
  destruct (Nat.le_gt_cases n (length rest)) as [Hfull|Hshort].
  - rewrite zip_round_full by exact Hfull. f_equal.
    assert (Hlen : length (skipn n rest) = (length rest - n)%nat)
      by apply length_skipn.
    apply IH; lia.
  - destruct rest as [|v rest'].
    + replace (repeat Live n) with (repeat Live n ++ []) by apply app_nil_r.
      rewrite zip_round_stop by lia. reflexivity.
    + rewrite zip_round_partial by (cbn [length] in *; lia).
      destruct fuel as [|fuel]; [cbn [length] in *; lia|].
      destruct fuel' as [|fuel']; [cbn [length] in *; lia|].
      cbn [zip_loop]. rewrite zip_round_stop by (cbn [length]; lia).
      reflexivity.
Qed.

Lemma grouper_loop {A : Type} (n : Z) (l : list A) (fillvalue : A) :
  (1 <= n)%Z ->
  grouper n l fillvalue
  = zip_loop (S (S (length l))) fillvalue (repeat Live (Z.to_nat n)) l
             (Z.to_nat n).
Proof.
  intros Hn. unfold grouper. rewrite repeat_length.
  destruct (Z.to_nat n) as [|k] eqn:E; [lia|]. reflexivity.
Qed.

(** X18.  [grouper(n, iterable, fillvalue)] cuts the input into tuples of
    [n] items: for [n >= 1] every tuple has length [n], and the tuples put
    end to end are the input followed by fewer than [n] fill values, so
    that no item is lost, repeated or reordered; the iteration ends by
    itself (more rounds yield nothing more).  For [n <= 0] nothing is
    yielded. *)
Theorem grouper_chunks {A : Type} (n : Z) (l : list A) (fillvalue : A) :
  ((n <= 0)%Z -> grouper n l fillvalue = [])
  /\ ((1 <= n)%Z ->
      Forall (fun g => length g = Z.to_nat n) (grouper n l fillvalue)
      /\ (exists k, (k < Z.to_nat n)%nat
                    /\ concat (grouper n l fillvalue) = l ++ repeat fillvalue k
                    /\ (length l + k
                        = Z.to_nat n * length (grouper n l fillvalue))%nat)
      /\ forall more,
           zip_loop (S (S (length l)) + more) fillvalue
                    (repeat Live (Z.to_nat n)) l (Z.to_nat n)
           = grouper n l fillvalue).
Proof.
  split.
  - intros Hn. unfold grouper. replace (Z.to_nat n) with 0%nat by lia.
    reflexivity.
  - intros Hn. rewrite (grouper_loop n l fillvalue Hn).
    destruct (zip_loop_spec fillvalue (Z.to_nat n) ltac:(lia)
                (S (S (length l))) l ltac:(lia)) as [Hall Hk].
    split; [exact Hall|]. split; [exact Hk|].
    intros more. apply zip_loop_fuel; lia.
Qed.

Lemma grouper_chunks_witness :
  Forall (fun g => length g = 3%nat) (grouper 3 [1; 2; 3; 4; 5; 6; 7]%Z 0%Z)
  /\ exists k, (k < 3)%nat
               /\ concat (grouper 3 [1; 2; 3; 4; 5; 6; 7]%Z 0%Z)
                  = [1; 2; 3; 4; 5; 6; 7]%Z ++ repeat 0%Z k.
Proof.
  destruct (proj2 (grouper_chunks 3 [1; 2; 3; 4; 5; 6; 7]%Z 0%Z) ltac:(lia))
    as (Hall & (k & Hk & Hcat & _) & _).
  split; [exact Hall|]. exists k. split; [exact Hk|exact Hcat].
Defined.

Lemma nth_concat_uniform {A : Type} (n : nat) (gs : list (list A)) (d : A)
    (i j : nat) :
  Forall (fun g => length g = n) gs ->
  (i < length gs)%nat -> (j < n)%nat ->
  nth (i * n + j) (concat gs) d = nth j (nth i gs []) d.
Proof.
  intros Hall. revert i. induction Hall as [|g gs Hg Hall IH]; intros i Hi Hj.
  - cbn in Hi. lia.
  - cbn [concat]. destruct i as [|i].
    + cbn [Nat.mul Nat.add nth]. apply app_nth1. lia.
    + rewrite app_nth2 by (rewrite Hg; lia).
      replace (S i * n + j - length g)%nat with (i * n + j)%nat by (rewrite Hg; lia).
      cbn [nth]. apply IH; [cbn in Hi; lia|exact Hj].
Qed.

Lemma nth_app_fill {A : Type} (l : list A) (d : A) (k i : nat) :
  nth i (l ++ repeat d k) d = nth i l d.
Proof.
  destruct (Nat.lt_ge_cases i (length l)) as [Hi|Hi].
  - apply app_nth1, Hi.
  - rewrite app_nth2 by exact Hi. rewrite (nth_overflow l) by exact Hi.
    destruct (nth_in_or_default (i - length l) (repeat d k) d) as [Hin|E];
      [|exact E].
    apply repeat_spec in Hin. exact Hin.
Qed.

(** X19.  For [n >= 1], [grouper] yields [ceil(len / n)] tuples, and the
    item [j] of tuple [i] is the item [i * n + j] of the input, or the fill
    value past its end. *)
Theorem grouper_index {A : Type} (n : Z) (l : list A) (fillvalue : A)
    (i j : nat) :
  (1 <= n)%Z ->
  length (grouper n l fillvalue) = ((length l + Z.to_nat n - 1) / Z.to_nat n)%nat
  /\ ((i < length (grouper n l fillvalue))%nat -> (j < Z.to_nat n)%nat ->
      nth j (nth i (grouper n l fillvalue) []) fillvalue
      = nth (i * Z.to_nat n + j) l fillvalue).
Proof.
  intros Hn. rewrite (grouper_loop n l fillvalue Hn).
  destruct (zip_loop_spec fillvalue (Z.to_nat n) ltac:(lia)
              (S (S (length l))) l ltac:(lia)) as (Hall & k & Hk & Hcat & Hcount).
  cbv zeta in *. set (gs := zip_loop _ _ _ _ _) in *. split.
  - apply Nat.div_unique with (Z.to_nat n - 1 - k)%nat; lia.
  - intros Hi Hj.
    rewrite <- (nth_concat_uniform (Z.to_nat n) gs fillvalue i j Hall Hi Hj).
    rewrite Hcat. apply nth_app_fill.
Qed.

Lemma grouper_index_witness :
  length (grouper 3 [1; 2; 3; 4; 5; 6; 7]%Z 0%Z) = 3%nat
  /\ nth 0 (nth 2 (grouper 3 [1; 2; 3; 4; 5; 6; 7]%Z 0%Z) []) 0%Z = 7%Z
  /\ nth 1 (nth 2 (grouper 3 [1; 2; 3; 4; 5; 6; 7]%Z 0%Z) []) 0%Z = 0%Z.
Proof.
  destruct (grouper_index 3 [1; 2; 3; 4; 5; 6; 7]%Z 0%Z 2 0 ltac:(lia))
    as [Hlen H0].
  destruct (grouper_index 3 [1; 2; 3; 4; 5; 6; 7]%Z 0%Z 2 1 ltac:(lia))
    as [_ H1].
  split; [exact Hlen|]. split.
  - apply H0; [rewrite Hlen; vm_compute; lia|vm_compute; lia].
  - apply H1; [rewrite Hlen; vm_compute; lia|vm_compute; lia].
Defined.

(** ** [H] *)

Lemma sum_app (l l' : list Q) : sum (l ++ l') == sum l + sum l'.
Proof.
  induction l as [|a l IH]; unfold sum in *; cbn [app fold_right]; [ring|].
  rewrite IH. ring.
Qed.

Lemma H_nonpositive (n : Z) : (n <= 0)%Z -> H n == 0.
Proof.
  intros Hn. unfold H, arange_from.
  replace (Z.to_nat (n + 1 - 1)) with 0%nat by lia. reflexivity.
Qed.

Lemma H_succ (n : Z) : (0 <= n)%Z -> H (n + 1) == H n + 1 / inject_Z (n + 1).
Proof.
  intros Hn. unfold H, arange_from.
  replace (Z.to_nat (n + 1 + 1 - 1)) with (S (Z.to_nat (n + 1 - 1))) by lia.
  rewrite seq_S, !map_app, sum_app. cbn [map Nat.add].
  replace (1 + Z.of_nat (Z.to_nat (n + 1 - 1)))%Z with (n + 1)%Z by lia.
  assert (E : sum [1.0 / inject_Z (n + 1)] == 1 / inject_Z (n + 1)).
  { unfold sum. cbn [fold_right].
    assert (H1 : 1.0 == 1) by reflexivity. rewrite H1. ring. }
  rewrite E. reflexivity.
Qed.

Lemma inv_pos_Z (z : Z) : (1 <= z)%Z -> 0 < 1 / inject_Z z.
Proof.
  intros Hz. apply Qlt_shift_div_l; [|lra].
  change 0 with (inject_Z 0). rewrite <- Zlt_Qlt. lia.
Qed.

Lemma inv_le_Z (a b : Z) :
  (1 <= a <= b)%Z -> 1 / inject_Z b <= 1 / inject_Z a.
Proof.
  intros Hab.
  assert (Ha : 0 < inject_Z a)
    by (change 0 with (inject_Z 0); rewrite <- Zlt_Qlt; lia).
  assert (Hb : 0 < inject_Z b)
    by (change 0 with (inject_Z 0); rewrite <- Zlt_Qlt; lia).
  assert (Hle : inject_Z a <= inject_Z b) by (rewrite <- Zle_Qle; lia).
  apply Qle_shift_div_l; [exact Ha|].
  assert (E : 1 / inject_Z b * inject_Z a == inject_Z a / inject_Z b)
    by (field; lra).
  rewrite E. apply Qle_shift_div_r; [exact Hb|]. lra.
Qed.

(** The terms added between [H n] and [H (n + m)] are each at least
    [1 / N], for every [N >= n + m]. *)
Lemma H_grows (n : Z) (m : nat) (N : Z) :
  (0 <= n)%Z -> (1 <= N)%Z -> (n + Z.of_nat m <= N)%Z ->
  H n + inject_Z (Z.of_nat m) / inject_Z N <= H (n + Z.of_nat m).
Proof.
  intros Hn HN. induction m as [|m IH]; intros Hm.
  - replace (n + Z.of_nat 0)%Z with n by lia.
    change (inject_Z (Z.of_nat 0)) with 0.
    assert (E : 0 / inject_Z N == 0) by (unfold Qdiv; ring).
    rewrite E. lra.
  - replace (n + Z.of_nat (S m))%Z with (n + Z.of_nat m + 1)%Z by lia.
    rewrite H_succ by lia. specialize (IH ltac:(lia)).
    pose proof (inv_le_Z (n + Z.of_nat m + 1) N ltac:(lia)) as Hinv.
    assert (E : inject_Z (Z.of_nat (S m)) / inject_Z N
                == inject_Z (Z.of_nat m) / inject_Z N + 1 / inject_Z N).
    { rewrite Nat2Z.inj_succ. unfold Z.succ. rewrite inject_Z_plus.
      assert (HN' : ~ inject_Z N == 0).
      { intros E0. change 0 with (inject_Z 0) in E0.
        rewrite inject_Z_injective in E0. lia. }
      field. exact HN'. }
    rewrite E. lra.
Qed.

(** X20.  [H(n)] is zero for [n <= 0] (the sum is empty: no error), gains
    [1 / (n + 1)] from [n] to [n + 1], and for [n >= 1] lies between [1] and
    [n]. *)
Theorem H_harmonic (n : Z) :
  ((n <= 0)%Z -> H n == 0)
  /\ ((0 <= n)%Z -> H (n + 1) == H n + 1 / inject_Z (n + 1))
  /\ ((1 <= n)%Z -> 1 <= H n /\ H n <= inject_Z n).
Proof.
  split; [apply H_nonpositive|]. split; [apply H_succ|].
  intros Hn. split.
  - pose proof (H_grows 1 (Z.to_nat (n - 1)) n ltac:(lia) Hn ltac:(lia)) as Hg.
    replace (1 + Z.of_nat (Z.to_nat (n - 1)))%Z with n in Hg by lia.
    assert (H1 : H 1 == 1) by reflexivity. rewrite H1 in Hg.
    assert (Hq : 0 <= inject_Z (Z.of_nat (Z.to_nat (n - 1))) / inject_Z n).
    { apply Qle_shift_div_l.
      - change 0 with (inject_Z 0). rewrite <- Zlt_Qlt. lia.
      - assert (E : 0 * inject_Z n == inject_Z 0) by (change (inject_Z 0) with 0; ring).
        rewrite E. rewrite <- Zle_Qle. lia. }
    lra.
  - rewrite <- (Z2Nat.id n) by lia. clear Hn.
    induction (Z.to_nat n) as [|k IH].
    + rewrite H_nonpositive by (cbn; lia). apply Qle_refl.
    + replace (Z.of_nat (S k)) with (Z.of_nat k + 1)%Z by lia.
      rewrite H_succ by lia. rewrite inject_Z_plus.
      pose proof (inv_le_Z 1 (Z.of_nat k + 1) ltac:(lia)) as Hinv.
      assert (E : 1 / inject_Z 1 == 1) by reflexivity.
      rewrite E in Hinv. rewrite inject_Z_plus in Hinv.
      change (inject_Z 1) with 1 in *. lra.
Qed.

Lemma H_harmonic_witness : 1 <= H 4 /\ H 4 <= inject_Z 4.
Proof.
  exact (proj2 (proj2 (H_harmonic 4)) ltac:(lia)).
Defined.

(** X21.  [H] grows by at least one half when [n] is doubled, so it is
    unbounded: [H(2 n) >= H(n) + 1/2] for [n >= 1]. *)
Theorem H_doubling (n : Z) :
  (1 <= n)%Z -> H n + 1 / 2 <= H (2 * n).
Proof.
  intros Hn.
  pose proof (H_grows n (Z.to_nat n) (2 * n) ltac:(lia) ltac:(lia) ltac:(lia))
    as Hg.
  replace (n + Z.of_nat (Z.to_nat n))%Z with (2 * n)%Z in Hg by lia.
  rewrite Z2Nat.id in Hg by lia.
  assert (E : inject_Z n / inject_Z (2 * n) == 1 / 2).
  { rewrite inject_Z_mult.
    assert (Hn' : ~ inject_Z n == 0).
    { intros E0. change 0 with (inject_Z 0) in E0.
      rewrite inject_Z_injective in E0. lia. }
    change (inject_Z 2) with 2. field. exact Hn'. }
  rewrite E in Hg. exact Hg.
Qed.

Lemma H_doubling_witness : H 3 + 1 / 2 <= H 6.
Proof. exact (H_doubling 3 ltac:(lia)). Defined.

(** ** The eigensystem of the rate matrix *)

Lemma rate_matrix_defined (z : Z) (fmt : spformat) :
  (0 <= z)%Z -> exists M, rate_matrix (PyInt z) fmt = Ok M.
Proof.
  intros Hz. rewrite <- (Z2Nat.id z Hz). rewrite rate_matrix_dia. eauto.
Qed.

(** The storage format does not change the entries. *)
Lemma rate_matrix_todense (n : pynum) (f f' : spformat) (M M' : spmatrix) :
  rate_matrix n f = Ok M -> rate_matrix n f' = Ok M' ->
  todense M = todense M'.
Proof.
  intros HM HM'. destruct (rate_matrix_returns _ _ _ HM) as (z & -> & Hz).
  rewrite <- (Z2Nat.id z Hz) in HM, HM'. rewrite rate_matrix_dia in HM, HM'.
  injection HM as <-. injection HM' as <-. reflexivity.
Qed.

Lemma num_key_int_inj (z z' : Z) :
  num_key (PyInt z) = num_key (PyInt z') -> z = z'.
Proof.
  intros Hk. apply num_key_val in Hk. cbn [num_val] in Hk.
  rewrite inject_Z_injective in Hk. exact Hk.
Qed.

Lemma num_key_invalid (n : pynum) (z : Z) :
  invalid_size n -> (0 <= z)%Z -> num_key n <> num_key (PyInt z).
Proof.
  intros Hn Hz Hk. apply num_key_val in Hk. cbn [num_val] in Hk.
  destruct Hn as [Hn|Hn].
  - rewrite Hk in Hn. apply Qlt_not_le in Hn. apply Hn.
    change 0 with (inject_Z 0). rewrite <- Zle_Qle. exact Hz.
  - apply Hn. exists z. exact Hk.
Qed.

(** A matrix cached for the call [rate_matrix(n)] is the rate matrix of a
    non-negative int that compares equal to [n], in some format. *)
Lemma rm_cached_dense (rs : rm_state) (n : pynum) (M : spmatrix) :
  cache_sound rm_key rate_matrix_apply rs ->
  cache rs !! rm_key (Args1 n) = Some M ->
  exists z Mc, (0 <= z)%Z /\ num_key n = num_key (PyInt z)
               /\ rate_matrix (PyInt z) CSR = Ok Mc
               /\ todense M = todense Mc.
Proof.
  intros Hs Hc. destruct (Hs _ _ Hc) as (a & kw & Hkey & Hok).
  destruct a as [n'|n' f']; [|discriminate].
  cbn [rm_key] in Hkey.
  assert (Hn : num_key n = num_key n') by congruence.
  assert (Hf : exists f, rate_matrix n' f = Ok M).
  { destruct kw as [f|]; cbn [rate_matrix_apply] in Hok; eauto. }
  destruct Hf as [f Hf].
  destruct (rate_matrix_returns _ _ _ Hf) as (z & -> & Hz).
  destruct (rate_matrix_defined z CSR Hz) as [Mc HMc].
  exists z, Mc. split; [exact Hz|]. split; [exact Hn|]. split; [exact HMc|].
  exact (rate_matrix_todense _ _ _ _ _ Hf HMc).
Qed.

Lemma rate_matrix_memo_invalid (a : rm_args) (kw : rm_kwargs) (s : rm_state) :
  cache_sound rm_key rate_matrix_apply s ->
  invalid_size (arg_n a) ->
  exists e, rate_matrix_memo a kw s
            = (Raise e, MemoState (cache s) (calls s ++ [(a, kw)])).
Proof.
  intros Hs Hn.
  assert (Hraise : exists e, rate_matrix_apply a kw = Raise e).
  { destruct a as [n'|n' f], kw as [f'|]; cbn [rate_matrix_apply arg_n] in *;
      eauto; apply rate_matrix_invalid, Hn. }
  destruct Hraise as [e He]. exists e.
  apply memoizer_raise; [|exact He].
  destruct (cache s !! rm_key a) as [M|] eqn:Hc; [exfalso|reflexivity].
  destruct (Hs _ _ Hc) as (a' & kw' & Hkey & Hok).
  apply rate_matrix_apply_returns in Hok. destruct Hok as (z & Hz & Hz0).
  apply rm_key_n in Hkey. rewrite Hz in Hkey.
  exact (num_key_invalid _ z Hn Hz0 (eq_sym Hkey)).
Qed.

Section MoranEigensystemFacts.
Context {Vec Mat : Type}.
Variable eig : array -> option (Vec * Mat).
Variable inv : Mat -> option Mat.


Lemma me_fresh_inv : me_inv eig inv (me_fresh Vec Mat).
Proof.
  split; [apply memoize_sound|].
  intros k P d Pinv Hk. cbn in Hk. rewrite lookup_empty in Hk. discriminate.
Qed.

Lemma eigensystem_inv (n : pynum) (s : me_state Vec Mat) :
  me_inv eig inv s -> me_inv eig inv (snd (moran_eigensystem eig inv n s)).
Proof.
  intros [Hs Hc]. unfold me_inv, moran_eigensystem.
  destruct (me_cache s !! num_key n) as [[[P d] Pinv]|] eqn:Hn;
    [split; assumption|].
  unfold moran_eigensystem_body.
  pose proof (memoizer_sound rm_key rate_matrix_apply (Args1 n) None _ Hs)
    as Hs1.
  pose proof (memoizer_stores rm_key rate_matrix_apply (Args1 n) None
                (rate_matrix_state s)) as Hst.
  pose proof (fun k v => memoizer_keeps rm_key rate_matrix_apply (Args1 n) None
                           (rate_matrix_state s) k v) as Hkeep.
  fold (rate_matrix_memo (Args1 n) None (rate_matrix_state s))
    in Hs1, Hst, Hkeep.
  destruct (rate_matrix_memo (Args1 n) None (rate_matrix_state s)) as [r rs].
  cbn [fst snd] in Hs1, Hst, Hkeep.
  assert (Hold : forall k P d Pinv,
             me_cache s !! k = Some (P, d, Pinv) ->
             exists z M,
               (0 <= z)%Z /\ k = num_key (PyInt z)
               /\ rate_matrix (PyInt z) CSR = Ok M
               /\ eig (todense M) = Some (d, P)
               /\ inv P = Some Pinv
               /\ exists M', cache rs !! (k, None) = Some M').
  { intros k P d Pinv Hk.
    destruct (Hc k P d Pinv Hk) as (z & M & H1 & H2 & H3 & H4 & H5 & M' & H6).
    exists z, M. repeat (split; [assumption|]). exists M'. apply Hkeep, H6. }
  destruct r as [rm|e]; [|split; assumption].
  specialize (Hst rm eq_refl). cbn [rm_key] in Hst.
  destruct (eig (todense rm)) as [[d P]|] eqn:He; [|split; assumption].
  destruct (inv P) as [Pinv|] eqn:Hi; [|split; assumption].
  cbn [snd rate_matrix_state me_cache]. split; [exact Hs1|].
  intros k P' d' Pinv'.
  destruct (decide (num_key n = k)) as [<-|Hne].
  - rewrite lookup_insert_eq. intros [= <- <- <-].
    destruct (rm_cached_dense rs n rm Hs1 Hst) as (z & Mc & Hz & Hk & HMc & Hd).
    exists z, Mc. split; [exact Hz|]. split; [exact Hk|]. split; [exact HMc|].
    rewrite <- Hd. split; [exact He|]. split; [exact Hi|]. eauto.
  - rewrite lookup_insert_ne by exact Hne. apply Hold.
Qed.

Lemma step_inv (s : me_state Vec Mat) (c : me_call) :
  me_inv eig inv s -> me_inv eig inv (me_step eig inv s c).
Proof.
  intros Hs. destruct c as [a kw|n]; [|apply eigensystem_inv, Hs].
  destruct Hs as [Hs Hc]. split.
  - apply memoizer_sound, Hs.
  - intros k P d Pinv Hk.
    destruct (Hc k P d Pinv Hk) as (z & M & H1 & H2 & H3 & H4 & H5 & M' & H6).
    exists z, M. repeat (split; [assumption|]). exists M'.
    apply memoizer_keeps, H6.
Qed.

Lemma run_inv (cs : list me_call) (s : me_state Vec Mat) :
  me_inv eig inv s -> me_inv eig inv (me_run eig inv cs s).
Proof.
  revert s. induction cs as [|c cs IH]; intros s Hs; [exact Hs|].
  apply IH, step_inv, Hs.
Qed.

(** A call never removes or changes an entry of either cache. *)
Lemma eigensystem_keeps (n : pynum) (s : me_state Vec Mat) :
  (forall k v, me_cache s !! k = Some v ->
               me_cache (snd (moran_eigensystem eig inv n s)) !! k = Some v)
  /\ (forall k v, cache (rate_matrix_state s) !! k = Some v ->
                  cache (rate_matrix_state (snd (moran_eigensystem eig inv n s)))
                    !! k = Some v).
Proof.
  unfold moran_eigensystem.
  destruct (me_cache s !! num_key n) as [[[P d] Pinv]|] eqn:Hn;
    [split; intros; assumption|].
  unfold moran_eigensystem_body.
  pose proof (fun k v => memoizer_keeps rm_key rate_matrix_apply (Args1 n) None
                           (rate_matrix_state s) k v) as Hkeep.
  fold (rate_matrix_memo (Args1 n) None (rate_matrix_state s)) in Hkeep.
  destruct (rate_matrix_memo (Args1 n) None (rate_matrix_state s)) as [r rs].
  cbn [snd] in Hkeep.
  destruct r as [rm|e]; [|split; [intros; assumption|exact Hkeep]].
  destruct (eig (todense rm)) as [[d P]|];
    [|split; [intros; assumption|exact Hkeep]].
  destruct (inv P) as [Pinv|];
    [|split; [intros; assumption|exact Hkeep]].
  cbn [snd rate_matrix_state me_cache]. split; [|exact Hkeep].
  intros k v Hk. rewrite lookup_insert_ne; [exact Hk|].
  intros Heq. rewrite Heq in Hn. congruence.
Qed.

Lemma step_keeps (s : me_state Vec Mat) (c : me_call) :
  (forall k v, me_cache s !! k = Some v ->
               me_cache (me_step eig inv s c) !! k = Some v)
  /\ (forall k v, cache (rate_matrix_state s) !! k = Some v ->
                  cache (rate_matrix_state (me_step eig inv s c)) !! k = Some v).
Proof.
  destruct c as [a kw|n]; [|apply eigensystem_keeps].
  split; [intros; assumption|]. intros k v Hk. apply memoizer_keeps, Hk.
Qed.

Lemma run_keeps (cs : list me_call) (s : me_state Vec Mat) :
  (forall k v, me_cache s !! k = Some v ->
               me_cache (me_run eig inv cs s) !! k = Some v)
  /\ (forall k v, cache (rate_matrix_state s) !! k = Some v ->
                  cache (rate_matrix_state (me_run eig inv cs s)) !! k = Some v).
Proof.
  revert s. induction cs as [|c cs IH]; intros s; [split; intros; assumption|].
  destruct (step_keeps s c) as [H1 H2].
  destruct (IH (me_step eig inv s c)) as [H3 H4].
  split; intros k v Hk; [apply H3, H1, Hk|apply H4, H2, Hk].
Qed.

(** A call that returns leaves its result in the cache, and the rate matrix
    in the cache of [rate_matrix]. *)
Lemma eigensystem_stores (n : pynum) (s : me_state Vec Mat) (P : Mat) (d : Vec)
    (Pinv : Mat) :
  me_inv eig inv s ->
  fst (moran_eigensystem eig inv n s) = Eigensystem P d Pinv ->
  me_cache (snd (moran_eigensystem eig inv n s)) !! num_key n
  = Some (P, d, Pinv)
  /\ exists M, cache (rate_matrix_state (snd (moran_eigensystem eig inv n s)))
                 !! rm_key (Args1 n) = Some M.
Proof.
  intros Hinv Hr.
  pose proof (eigensystem_inv n s Hinv) as [_ Hc'].
  assert (Hk : me_cache (snd (moran_eigensystem eig inv n s)) !! num_key n
               = Some (P, d, Pinv)).
  { revert Hr. unfold moran_eigensystem.
    destruct (me_cache s !! num_key n) as [[[P0 d0] Pinv0]|] eqn:Hn.
    - cbn [fst snd]. intros [= <- <- <-]. exact Hn.
    - destruct (moran_eigensystem_body eig inv n s)
        as [[P0 d0 Pinv0|e|] s1];
        cbn [fst snd me_cache]; [|discriminate..].
      intros [= <- <- <-]. apply lookup_insert_eq. }
  split; [exact Hk|].
  destruct (Hc' _ _ _ _ Hk) as (z & M & _ & _ & _ & _ & _ & M' & HM').
  exists M'. exact HM'.
Qed.

(** The decomposition a call returns is that of the dense rate matrix. *)
Lemma eigensystem_returns (z : Z) (M : spmatrix) (P : Mat) (d : Vec)
    (Pinv : Mat) (s : me_state Vec Mat) :
  me_inv eig inv s ->
  rate_matrix (PyInt z) CSR = Ok M ->
  eig (todense M) = Some (d, P) ->
  inv P = Some Pinv ->
  fst (moran_eigensystem eig inv (PyInt z) s) = Eigensystem P d Pinv.
Proof.
  intros [Hs Hc] HM He Hi. unfold moran_eigensystem.
  destruct (me_cache s !! num_key (PyInt z)) as [[[P0 d0] Pinv0]|] eqn:Hn.
  - destruct (Hc _ _ _ _ Hn) as (z' & M' & _ & Hk & HM' & He' & Hi' & _).
    apply num_key_int_inj in Hk. subst z'.
    assert (M' = M) by congruence. subst M'.
    assert (d0 = d /\ P0 = P) as [-> ->] by (split; congruence).
    assert (Pinv0 = Pinv) by congruence. subst. reflexivity.
  - unfold moran_eigensystem_body.
    pose proof (memoizer_sound rm_key rate_matrix_apply (Args1 (PyInt z)) None
                  _ Hs) as Hs1.
    pose proof (memoizer_stores rm_key rate_matrix_apply (Args1 (PyInt z)) None
                  (rate_matrix_state s)) as Hst.
    assert (Hok : exists rm,
               fst (rate_matrix_memo (Args1 (PyInt z)) None
                      (rate_matrix_state s)) = Ok rm).
    { unfold rate_matrix_memo, memoizer, getitem.
      destruct (cache (rate_matrix_state s) !! rm_key (Args1 (PyInt z)))
        as [w|] eqn:Hw; cbn [fst].
      - eauto.
      - cbn [rate_matrix_apply]. rewrite HM. cbn [fst cache].
        rewrite lookup_insert_eq. eauto. }
    fold (rate_matrix_memo (Args1 (PyInt z)) None (rate_matrix_state s))
      in Hs1, Hst.
    destruct (rate_matrix_memo (Args1 (PyInt z)) None (rate_matrix_state s))
      as [r rs].
    cbn [fst snd] in Hs1, Hst, Hok. destruct Hok as [rm ->].
    specialize (Hst rm eq_refl).
    destruct (rm_cached_dense rs _ rm Hs1 Hst) as (z' & Mc & _ & Hk & HMc & Hd).
    apply num_key_int_inj in Hk. subst z'.
    assert (Mc = M) by congruence. subst Mc.
    rewrite Hd, He, Hi. reflexivity.
Qed.

Lemma eigensystem_hit (n : pynum) (s : me_state Vec Mat) (P : Mat) (d : Vec)
    (Pinv : Mat) :
  me_cache s !! num_key n = Some (P, d, Pinv) ->
  moran_eigensystem eig inv n s = (Eigensystem P d Pinv, s).
Proof. intros Hk. unfold moran_eigensystem. rewrite Hk. reflexivity. Qed.

(** X22.  For a negative or non-integer [n], after any calls made before,
    [moran_eigensystem(n)] raises the error of [rate_matrix]:
    [np.linalg.eig] is not called and neither cache gets an entry. *)
Theorem moran_eigensystem_fails_fast (n : pynum) (cs : list me_call) :
  invalid_size n ->
  let s := me_run eig inv cs (me_fresh Vec Mat) in
  exists e s',
    moran_eigensystem eig inv n s = (RateMatrixError e, s')
    /\ eig_calls s' = eig_calls s
    /\ me_cache s' = me_cache s
    /\ cache (rate_matrix_state s') = cache (rate_matrix_state s).
Proof.
  intros Hn s.
  assert (Hinv : me_inv eig inv s) by apply run_inv, me_fresh_inv.
  destruct Hinv as [Hs Hc].
  destruct (rate_matrix_memo_invalid (Args1 n) None _ Hs Hn) as [e He].
  exists e. eexists. unfold moran_eigensystem.
  destruct (me_cache s !! num_key n) as [[[P d] Pinv]|] eqn:Hk.
  - exfalso. destruct (Hc _ _ _ _ Hk) as (z & M & Hz & Hkz & _).
    exact (num_key_invalid n z Hn Hz Hkz).
  - unfold moran_eigensystem_body. rewrite He.
    split; [reflexivity|]. cbn. auto.
Qed.

(** X23.  For [n >= 0], if [np.linalg.eig] returns [(d, P)] on the dense
    rate matrix and [np.linalg.inv] returns [Pinv] on [P], then
    [moran_eigensystem(n)] returns [(P, d, Pinv)] after any calls made
    before; and every later call with [n], after any calls in between,
    returns the same tuple from the cache and leaves the state as it is, so
    that neither [rate_matrix] nor [np.linalg.eig] is run again. *)
Theorem moran_eigensystem_computes_once (n : Z) (M : spmatrix) (P : Mat)
    (d : Vec) (Pinv : Mat) (cs cs' : list me_call) :
  rate_matrix (PyInt n) CSR = Ok M ->
  eig (todense M) = Some (d, P) ->
  inv P = Some Pinv ->
  let s := me_run eig inv cs (me_fresh Vec Mat) in
  let s' := me_run eig inv cs' (snd (moran_eigensystem eig inv (PyInt n) s)) in
  fst (moran_eigensystem eig inv (PyInt n) s) = Eigensystem P d Pinv
  /\ moran_eigensystem eig inv (PyInt n) s' = (Eigensystem P d Pinv, s').
Proof.
  intros HM He Hi s s'.
  assert (Hinv : me_inv eig inv s) by apply run_inv, me_fresh_inv.
  pose proof (eigensystem_returns n M P d Pinv s Hinv HM He Hi) as Hr.
  split; [exact Hr|].
  apply eigensystem_hit. unfold s'. apply run_keeps.
  apply (eigensystem_stores _ _ _ _ _ Hinv Hr).
Qed.

(** X24.  A call [moran_eigensystem(n)] that returns leaves the rate matrix
    in the cache of [rate_matrix]: after any further calls, [rate_matrix(n)],
    with or without the keyword [sparse_format], returns a cached matrix
    whose dense form is the rate matrix of [n], and does not run its body. *)
Theorem moran_eigensystem_caches_rate_matrix (n : Z) (P : Mat) (d : Vec)
    (Pinv : Mat) (cs cs' : list me_call) (kw : rm_kwargs) :
  let s := me_run eig inv cs (me_fresh Vec Mat) in
  let s' := me_run eig inv cs' (snd (moran_eigensystem eig inv (PyInt n) s)) in
  fst (moran_eigensystem eig inv (PyInt n) s) = Eigensystem P d Pinv ->
  exists M Mc,
    rate_matrix_memo (Args1 (PyInt n)) kw (rate_matrix_state s')
    = (Ok M, rate_matrix_state s')
    /\ rate_matrix (PyInt n) CSR = Ok Mc
    /\ todense M = todense Mc.
Proof.
  intros s s' Hr.
  assert (Hinv : me_inv eig inv s) by apply run_inv, me_fresh_inv.
  destruct (eigensystem_stores _ _ _ _ _ Hinv Hr) as [_ [M HM]].
  assert (HM' : cache (rate_matrix_state s') !! rm_key (Args1 (PyInt n))
                = Some M)
    by (unfold s'; apply run_keeps, HM).
  assert (Hinv' : me_inv eig inv s')
    by (unfold s'; apply run_inv, eigensystem_inv, Hinv).
  destruct (rm_cached_dense _ _ _ (proj1 Hinv') HM')
    as (z & Mc & _ & Hk & HMc & Hd).
  apply num_key_int_inj in Hk. subst z.
  exists M, Mc. split; [|split; assumption].
  apply memoizer_hit, HM'.
Qed.

End MoranEigensystemFacts.

Lemma moran_eigensystem_fails_fast_witness :
  exists e s',
    moran_eigensystem
      (fun M : array =>
         match M with [[a]] => Some ([Qred a], [[1]]) | _ => None end)
      (fun P : array =>
         match P with
         | [[a]] => if Qeq_bool a 0 then None else Some [[Qred (/ a)]]
         | _ => None
         end)
      (PyFloat 0.5) (me_fresh (list Q) array)
    = (RateMatrixError e, s')
    /\ eig_calls s' = []
    /\ me_cache s' = ∅
    /\ cache (rate_matrix_state s') = ∅.
Proof.
  refine (moran_eigensystem_fails_fast _ _ (PyFloat 0.5) [] _).
  right. intros [z Hz]. unfold Qeq in Hz. simpl in Hz. lia.
Defined.

Lemma moran_eigensystem_computes_once_witness :
  fst (moran_eigensystem
         (fun M : array =>
            match M with [[a]] => Some ([Qred a], [[1]]) | _ => None end)
         (fun P : array =>
            match P with
            | [[a]] => if Qeq_bool a 0 then None else Some [[Qred (/ a)]]
            | _ => None
            end)
         (PyInt 0) (me_fresh (list Q) array))
  = Eigensystem [[1]] [0] [[1]].
Proof.
  refine (proj1 (moran_eigensystem_computes_once _ _ 0 _ [[1]] [0] [[1]] [] []
                   _ _ _)); vm_compute; reflexivity.
Defined.

Lemma moran_eigensystem_caches_rate_matrix_witness :
  exists M Mc,
    rate_matrix_memo (Args1 (PyInt 0)) (Some CSC)
      (rate_matrix_state
         (snd (moran_eigensystem
                 (fun M : array =>
                    match M with
                    | [[a]] => Some ([Qred a], [[1]])
                    | _ => None
                    end)
                 (fun P : array =>
                    match P with
                    | [[a]] =>
                        if Qeq_bool a 0 then None else Some [[Qred (/ a)]]
                    | _ => None
                    end)
                 (PyInt 0) (me_fresh (list Q) array))))
    = (Ok M,
       rate_matrix_state
         (snd (moran_eigensystem
                 (fun M : array =>
                    match M with
                    | [[a]] => Some ([Qred a], [[1]])
                    | _ => None
                    end)
                 (fun P : array =>
                    match P with
                    | [[a]] =>
                        if Qeq_bool a 0 then None else Some [[Qred (/ a)]]
                    | _ => None
                    end)
                 (PyInt 0) (me_fresh (list Q) array))))
    /\ rate_matrix (PyInt 0) CSR = Ok Mc
    /\ todense M = todense Mc.
Proof.
  exact (moran_eigensystem_caches_rate_matrix
           (fun M : array =>
              match M with [[a]] => Some ([Qred a], [[1]]) | _ => None end)
           (fun P : array =>
              match P with
              | [[a]] => if Qeq_bool a 0 then None else Some [[Qred (/ a)]]
              | _ => None
              end)
           0 [[1]] [0] [[1]] [] [] (Some CSC)
           ltac:(vm_compute; reflexivity)).
Defined.
